(** * A shallow embedding of the COW interpreter [src/main.rs]

    The interpreter has three stages: [lex] turns the source text into a
    vector of [Command]s, [parse] nests the loops into a tree of
    [Instruction]s, and [exec] walks that tree over the memory vector, the
    pointer and the register.

    Modelling choices:
    - the source text is a list of Unicode scalar values (Rust [char]s) as
      [Z]; [split_whitespace] uses Rust's [char::is_whitespace] table;
    - [u8] and [usize] values are [Z]s with their wrap-around or overflow
      checks written out; [usize] is 64 bits wide and arithmetic overflow
      panics, as in the default (debug) build profile;
    - a [panic!], [todo!], an out-of-range index or a failed [expect] is a
      panic: [parse] returns [None], [exec] returns [Panicked] with the
      state the process had reached;
    - standard input is the list of bytes still to be read, standard
      output the list of bytes written so far;
    - [parse] is unfolded a bounded number of times ([parse_fuel]), enough
      since each recursive call is on a shorter slice; [exec] runs under a
      fuel bound spent one unit per step, and [OutOfFuel] only says the
      bound was too small. *)

From Stdlib Require Import ZArith Lia String Ascii.
From stdpp Require Import base list.

Open Scope Z_scope.
Set Warnings "-register-all".

(** ** Data model *)

Definition MEM_SIZE : nat := 3000.

Definition USIZE_MAX : Z := 2 ^ 64 - 1.

Module Command.
(** [enum Command], in the same order. *)
Inductive t :=
| LoopEnd
| DecPtr
| IncPtr
| ExecVal
| RWCond
| DecVal
| IncVal
| LoopStart
| ZeroVal
| RegAccess
| Write
| Read.
End Command.

Module Instruction.
(** [enum Instruction]: the commands without the loop markers, plus a
    loop owning its body. *)
Inductive t :=
| DecPtr
| IncPtr
| ExecVal
| RWCond
| DecVal
| IncVal
| ZeroVal
| RegAccess
| Write
| Read
| Loop (body : list t).
End Instruction.

(** [struct Register]. *)
Record Register := mkRegister { value : Z; empty : bool }.

(** ** Lexer *)

(** Rust [char::is_whitespace] (Unicode White_Space). *)
Definition is_whitespace (c : Z) : bool :=
  ((9 <=? c) && (c <=? 13)) || (c =? 32) || (c =? 133) || (c =? 160)
  || (c =? 5760) || ((8192 <=? c) && (c <=? 8202)) || (c =? 8232)
  || (c =? 8233) || (c =? 8239) || (c =? 8287) || (c =? 12288).

(** [str::split_whitespace]: the maximal runs of non-whitespace
    characters; [cur] holds the current run, reversed. *)
Fixpoint split_ws_aux (cur : list Z) (s : list Z) : list (list Z) :=
  match s with
  | [] => match cur with [] => [] | _ => [rev cur] end
  | c :: s' =>
      if is_whitespace c then
        match cur with
        | [] => split_ws_aux [] s'
        | _ => rev cur :: split_ws_aux [] s'
        end
      else split_ws_aux (c :: cur) s'
  end.

Definition split_whitespace (s : list Z) : list (list Z) := split_ws_aux [] s.

(** The characters of an ASCII string literal. *)
Definition chars (s : string) : list Z :=
  map (fun a => Z.of_nat (nat_of_ascii a)) (list_ascii_of_string s).

(** The [match element { ... }] of [lex]. *)
Definition command_of_token (element : list Z) : option Command.t :=
  if bool_decide (element = chars "moo") then Some Command.LoopEnd
  else if bool_decide (element = chars "mOo") then Some Command.DecPtr
  else if bool_decide (element = chars "moO") then Some Command.IncPtr
  else if bool_decide (element = chars "mOO") then Some Command.ExecVal
  else if bool_decide (element = chars "Moo") then Some Command.RWCond
  else if bool_decide (element = chars "MOo") then Some Command.DecVal
  else if bool_decide (element = chars "MoO") then Some Command.IncVal
  else if bool_decide (element = chars "MOO") then Some Command.LoopStart
  else if bool_decide (element = chars "OOO") then Some Command.ZeroVal
  else if bool_decide (element = chars "MMM") then Some Command.RegAccess
  else if bool_decide (element = chars "OOM") then Some Command.Write
  else if bool_decide (element = chars "oom") then Some Command.Read
  else None.

(** The [for element in contents_split] loop: push each recognised
    command onto [lexed]. *)
Fixpoint lex_tokens (lexed : list Command.t) (elements : list (list Z))
  : list Command.t :=
  match elements with
  | [] => lexed
  | element :: rest =>
      match command_of_token element with
      | Some comm => lex_tokens (lexed ++ [comm]) rest
      | None => lex_tokens lexed rest
      end
  end.

Definition lex (contents : list Z) : list Command.t :=
  lex_tokens [] (split_whitespace contents).

(** ** Parser *)

(** The local variables of [parse] that its [for] loop updates;
    [loop_level] (an [i32] in the source) never goes below 0. *)
Record PState := mkPState {
  instructions : list Instruction.t;
  loop_level : nat;
  loop_start : nat;
  skip_next : bool
}.

(** [commands[a..b]]; [parse] only takes it with [a <= b]. *)
Definition slice (commands : list Command.t) (a b : nat) : list Command.t :=
  take (b - a) (drop a commands).

(** One run of [for i in 0..commands.len()]: [rest] is [commands[i..]].
    [parse_rec] is the recursive call [parse], which is only applied to
    a strictly shorter slice. *)
Fixpoint scan (parse_rec : list Command.t -> option (list Instruction.t))
  (commands : list Command.t) (i : nat) (rest : list Command.t) (st : PState)
  : option (list Instruction.t) :=
  match rest with
  | [] => Some (instructions st)
  | c :: rest' =>
      let instrs := instructions st in
      let lvl := loop_level st in
      let start := loop_start st in
      if skip_next st then
        scan parse_rec commands (S i) rest' (mkPState instrs lvl start false)
      else if Nat.eqb lvl 0 then
        let push x :=
          scan parse_rec commands (S i) rest' (mkPState (instrs ++ [x]) lvl start false) in
        match c with
        | Command.LoopEnd => None (* panic!("Loop end with no loop start") *)
        | Command.DecPtr => push Instruction.DecPtr
        | Command.IncPtr => push Instruction.IncPtr
        | Command.ExecVal => push Instruction.ExecVal
        | Command.RWCond => push Instruction.RWCond
        | Command.DecVal => push Instruction.DecVal
        | Command.IncVal => push Instruction.IncVal
        | Command.LoopStart =>
            scan parse_rec commands (S i) rest' (mkPState instrs (S lvl) i true)
        | Command.ZeroVal => push Instruction.ZeroVal
        | Command.RegAccess => push Instruction.RegAccess
        | Command.Write => push Instruction.Write
        | Command.Read => push Instruction.Read
        end
      else
        match c with
        | Command.LoopStart =>
            scan parse_rec commands (S i) rest' (mkPState instrs (S lvl) start true)
        | Command.LoopEnd =>
            let lvl' := Nat.pred lvl in (* loop_level -= 1, with loop_level > 0 *)
            if Nat.eqb lvl' 0 then
              match parse_rec (slice commands (start + 1) i) with
              | None => None
              | Some body =>
                  scan parse_rec commands (S i) rest'
                    (mkPState (instrs ++ [Instruction.Loop body]) lvl' start false)
              end
            else scan parse_rec commands (S i) rest' (mkPState instrs lvl' start false)
        | _ => scan parse_rec commands (S i) rest' st
        end
  end.

Definition parse_init : PState := mkPState [] 0 0 false.

(** [parse], unfolded [fuel] times: each recursive call is on a strictly
    shorter slice, so [S (length commands)] unfoldings never run out. *)
Fixpoint parse_fuel (fuel : nat) (commands : list Command.t)
  : option (list Instruction.t) :=
  match fuel with
  | O => None
  | S fuel' => scan (parse_fuel fuel') commands 0 commands parse_init
  end.

Definition parse (commands : list Command.t) : option (list Instruction.t) :=
  parse_fuel (S (length commands)) commands.

(** ** Executor *)

(** [mem], [ptr] and [reg] of [exec], with the process's standard input
    (bytes still unread) and standard output (bytes written so far). *)
Record State := mkState {
  mem : list Z;
  ptr : Z;
  reg : Register;
  stdin : list Z;
  stdout : list Z
}.

Inductive Outcome :=
| Finished (st : State)
| Panicked (st : State)
| OutOfFuel.

(** [u8::wrapping_add] and [u8::wrapping_sub]. *)
Definition wrapping_add (a b : Z) : Z := (a + b) mod 256.
Definition wrapping_sub (a b : Z) : Z := (a - b) mod 256.

(** The bytes [print!("{}", v)] writes for a [u8] [v]: its decimal
    digits. *)
Definition display_u8 (v : Z) : list Z :=
  if v <? 10 then [48 + v]
  else if v <? 100 then [48 + v / 10; 48 + v mod 10]
  else [48 + v / 100; 48 + (v / 10) mod 10; 48 + v mod 10].

Definition with_mem (st : State) (m : list Z) : State :=
  mkState m (ptr st) (reg st) (stdin st) (stdout st).
Definition with_ptr (st : State) (p : Z) : State :=
  mkState (mem st) p (reg st) (stdin st) (stdout st).

Definition with_reg (st : State) (r : Register) : State :=
  mkState (mem st) (ptr st) r (stdin st) (stdout st).
Definition with_stdin (st : State) (inp : list Z) : State :=
  mkState (mem st) (ptr st) (reg st) inp (stdout st).

(** [mem[*ptr]]: [None] is the out-of-bounds panic. *)
Definition cur (st : State) : option Z := mem st !! Z.to_nat (ptr st).

(** [mem[*ptr] = v] once [mem[*ptr]] is known to be in bounds. *)
Definition set_cur (st : State) (v : Z) : State :=
  with_mem st (<[Z.to_nat (ptr st) := v]> (mem st)).

(** [std::io::stdin().read_exact(&mut buf).expect(...)]: the byte read
    and the state with it consumed; [None] at the end of input. *)
Definition read_exact (st : State) : option (Z * State) :=
  match stdin st with
  | [] => None
  | b :: inp => Some (b, mkState (mem st) (ptr st) (reg st) inp (stdout st))
  end.

Definition write_out (st : State) (v : Z) : State :=
  mkState (mem st) (ptr st) (reg st) (stdin st) (stdout st ++ display_u8 v).

(** The result of one arm: the next state, or a panic in the state the
    process has reached then. *)
Inductive StepResult :=
| Next (st : State)
| Panic (st : State).

(** The arms of [match instr] for the instructions other than [Loop]. Every
    panic is raised before any state change, except in [Read], where
    [read_exact] consumes a byte before [mem[*ptr] = buf[0]] checks the
    index. *)
Definition step (instr : Instruction.t) (st : State) : StepResult :=
  match instr with
  | Instruction.DecPtr =>
      if ptr st =? 0 then Panic st else Next (with_ptr st (ptr st - 1))
  | Instruction.IncPtr =>
      if ptr st =? USIZE_MAX then Panic st else Next (with_ptr st (ptr st + 1))
  | Instruction.ExecVal => Panic st (* todo!() *)
  | Instruction.RWCond =>
      match cur st with
      | None => Panic st
      | Some v =>
          if v =? 0 then
            match read_exact st with
            | None => Panic st
            | Some (b, st1) => Next (set_cur st1 b)
            end
          else Next (write_out st v)
      end
  | Instruction.DecVal =>
      match cur st with
      | None => Panic st
      | Some v => Next (set_cur st (wrapping_sub v 1))
      end
  | Instruction.IncVal =>
      match cur st with
      | None => Panic st
      | Some v => Next (set_cur st (wrapping_add v 1))
      end
  | Instruction.ZeroVal =>
      match cur st with
      | None => Panic st
      | Some _ => Next (set_cur st 0)
      end
  | Instruction.RegAccess =>
      match cur st with
      | None => Panic st
      | Some v =>
          let r := reg st in
          let '(st', value') :=
            if empty r then (st, v) else (set_cur st (value r), value r) in
          Next (with_reg st' (mkRegister value' (negb (empty r))))
      end
  | Instruction.Write =>
      match cur st with
      | None => Panic st
      | Some v => Next (write_out st v)
      end
  | Instruction.Read =>
      match read_exact st with
      | None => Panic st
      | Some (b, st1) =>
          match cur st1 with
          | None => Panic st1
          | Some _ => Next (set_cur st1 b)
          end
      end
  | Instruction.Loop _ => Next st (* handled by [exec] *)
  end.

(** [exec]: the [for instr in instructions] loop, with the [while] of a
    [Loop] unrolled one body run at a time. *)
Fixpoint exec (fuel : nat) (instructions : list Instruction.t) (st : State)
  : Outcome :=
  match fuel with
  | O => OutOfFuel
  | S fuel' =>
      match instructions with
      | [] => Finished st
      | Instruction.Loop body :: rest =>
          match cur st with
          | None => Panicked st
          | Some v =>
              if v =? 0 then exec fuel' rest st
              else match exec fuel' body st with
                   | Finished st' => exec fuel' instructions st'
                   | o => o
                   end
          end
      | instr :: rest =>
          match step instr st with
          | Panic st' => Panicked st'
          | Next st' => exec fuel' rest st'
          end
      end
  end.

(** The state [main] allocates. *)
Definition init_state (input : list Z) : State :=
  mkState (replicate MEM_SIZE 0) 0 (mkRegister 0 true) input [].

Inductive RunOutcome :=
| ParsePanicked
| Ran (o : Outcome).

(** [main] after reading the file: [lex], [parse], then [exec]. *)
Definition run (fuel : nat) (contents : list Z) (input : list Z) : RunOutcome :=
  match parse (lex contents) with
  | None => ParsePanicked
  | Some instructions => Ran (exec fuel instructions (init_state input))
  end.

(** ** Loop nesting and flattening, as the claims speak of them *)

Definition is_loop_marker (c : Command.t) : bool :=
  match c with Command.LoopStart | Command.LoopEnd => true | _ => false end.

Definition is_loop_start (c : Command.t) : bool :=
  match c with Command.LoopStart => true | _ => false end.

(** The nesting depth after a command sequence, from depth [d]; [None]
    when a [LoopEnd] comes at depth 0. *)
Fixpoint depth_walk (d : nat) (cs : list Command.t) : option nat :=
  match cs with
  | [] => Some d
  | Command.LoopStart :: cs' => depth_walk (S d) cs'
  | Command.LoopEnd :: cs' =>
      match d with O => None | S d' => depth_walk d' cs' end
  | _ :: cs' => depth_walk d cs'
  end.

(** Every [LoopStart] has a matching [LoopEnd] and no [LoopEnd] is
    unmatched. *)
Definition well_nested (cs : list Command.t) : bool :=
  match depth_walk 0 cs with Some O => true | _ => false end.

(** Every [LoopStart] is directly followed by a command that is not a loop
    marker; [after_start] says the previous command was a [LoopStart]. *)
Fixpoint starts_followed_by_op (after_start : bool) (cs : list Command.t) : bool :=
  match cs with
  | [] => negb after_start
  | c :: cs' =>
      (if after_start then negb (is_loop_marker c) else true)
      && starts_followed_by_op (is_loop_start c) cs'
  end.

(** The commands of a sequence without its loop markers. *)
Fixpoint drop_markers (cs : list Command.t) : list Command.t :=
  match cs with
  | [] => []
  | c :: cs' => if is_loop_marker c then drop_markers cs' else c :: drop_markers cs'
  end.

(** An instruction tree back in sequential command order, loop markers
    left out. *)
Fixpoint flatten_instr (x : Instruction.t) : list Command.t :=
  match x with
  | Instruction.DecPtr => [Command.DecPtr]
  | Instruction.IncPtr => [Command.IncPtr]
  | Instruction.ExecVal => [Command.ExecVal]
  | Instruction.RWCond => [Command.RWCond]
  | Instruction.DecVal => [Command.DecVal]
  | Instruction.IncVal => [Command.IncVal]
  | Instruction.ZeroVal => [Command.ZeroVal]
  | Instruction.RegAccess => [Command.RegAccess]
  | Instruction.Write => [Command.Write]
  | Instruction.Read => [Command.Read]
  | Instruction.Loop body =>
      (fix go (l : list Instruction.t) : list Command.t :=
         match l with [] => [] | y :: l' => flatten_instr y ++ go l' end) body
  end.

Fixpoint flatten (t : list Instruction.t) : list Command.t :=
  match t with [] => [] | x :: t' => flatten_instr x ++ flatten t' end.

(** ** [main] *)


(** ** Writing programs and reading output *)

(** The token [lex] maps to each command: the inverse of its [match]. *)
Definition token_of_command (c : Command.t) : string :=
  match c with
  | Command.LoopEnd => "moo"
  | Command.DecPtr => "mOo"
  | Command.IncPtr => "moO"
  | Command.ExecVal => "mOO"
  | Command.RWCond => "Moo"
  | Command.DecVal => "MOo"
  | Command.IncVal => "MoO"
  | Command.LoopStart => "MOO"
  | Command.ZeroVal => "OOO"
  | Command.RegAccess => "MMM"
  | Command.Write => "OOM"
  | Command.Read => "oom"
  end.

(** A command sequence written out as source text, each token followed by
    a space. *)
Definition unlex (cs : list Command.t) : list Z :=
  concat (map (fun c => chars (token_of_command c) ++ [32]) cs).

(** The number a string of decimal digits denotes. *)
Fixpoint decimal_value (acc : Z) (ds : list Z) : Z :=
  match ds with
  | [] => acc
  | d :: ds' => decimal_value (acc * 10 + (d - 48)) ds'
  end.

Definition is_digit (b : Z) : Prop := 48 <= b <= 57.

(** Every tape cell and the register hold [u8] values. *)
Definition bytes (l : list Z) : Prop := Forall (fun b => 0 <= b < 256) l.

Definition state_bytes (st : State) : Prop :=
  bytes (mem st) /\ 0 <= value (reg st) < 256 /\ bytes (stdin st).

(** ** Instruction classes *)

(** [f] holds of every instruction of a tree, loop bodies included. *)
Fixpoint instr_all (f : Instruction.t -> bool) (x : Instruction.t) : bool :=
  f x &&
  match x with
  | Instruction.Loop body =>
      (fix go (l : list Instruction.t) : bool :=
         match l with [] => true | y :: l' => instr_all f y && go l' end) body
  | _ => true
  end.

Definition prog_all (f : Instruction.t -> bool) (p : list Instruction.t) : bool :=
  forallb (instr_all f) p.

Definition is_ptr_move (x : Instruction.t) : bool :=
  match x with Instruction.DecPtr | Instruction.IncPtr => true | _ => false end.

Definition reads_input (x : Instruction.t) : bool :=
  match x with Instruction.Read | Instruction.RWCond => true | _ => false end.

Definition writes_output (x : Instruction.t) : bool :=
  match x with Instruction.Write | Instruction.RWCond => true | _ => false end.

(** ** Sanity checks *)

Example parse_loop_ex :
  parse [Command.LoopStart; Command.IncVal; Command.IncVal; Command.LoopEnd; Command.Write]
  = Some [Instruction.Loop [Instruction.IncVal; Instruction.IncVal]; Instruction.Write].
Proof. reflexivity. Qed.

Example lex_ex : lex (chars "MoO MoO  x MOO OOM") =
  [Command.IncVal; Command.IncVal; Command.LoopStart; Command.Write].
Proof. reflexivity. Qed.

Example run_ex :
  run 10 (chars "MoO MoO MoO OOM") [] =
  Ran (Finished (mkState (<[0%nat := 3]> (replicate MEM_SIZE 0)) 0 (mkRegister 0 true) [] [51])).
Proof. vm_compute. reflexivity. Qed.

(** A [Read] with the pointer off the tape consumes its byte, then
    panics at [mem[*ptr] = buf[0]]. *)
Example read_off_tape_ex :
  exec 2 [Instruction.Read] (mkState (replicate MEM_SIZE 0) 3000 (mkRegister 0 true) [7] []) =
  Panicked (mkState (replicate MEM_SIZE 0) 3000 (mkRegister 0 true) [] []).
Proof. reflexivity. Qed.

(** ** The executor *)

Lemma exec_more_fuel (n : nat) :
  forall instrs st o, exec n instrs st = o -> o <> OutOfFuel ->
  forall m, (n <= m)%nat -> exec m instrs st = o.
Proof.
  induction n as [|n IH]; intros instrs st o Hrun Ho m Hm.
  - subst o; simpl in Ho; congruence.
  - destruct m as [|m]; [lia|].
    assert (Hnm : (n <= m)%nat) by lia.
    destruct instrs as [|x rest]; simpl in *; [assumption|].
    destruct x; try (destruct (step _ st) as [st'|]; [apply IH; assumption | assumption]).
    destruct (cur st) as [v|]; [|assumption].
    destruct (v =? 0); [apply IH; assumption|].
    destruct (exec n body st) as [st1|st1|] eqn:Hb.
    + rewrite (IH body st (Finished st1) Hb ltac:(discriminate) m Hnm).
      apply IH; assumption.
    + rewrite (IH body st (Panicked st1) Hb ltac:(discriminate) m Hnm). assumption.
    + subst o; congruence.
Qed.

Lemma cur_set_cur (st : State) (v w : Z) :
  cur st = Some v -> cur (set_cur st w) = Some w.
Proof.
  unfold cur, set_cur, with_mem; simpl. intros H.
  apply list_lookup_insert_eq. eapply lookup_lt_Some; eassumption.
Qed.

Lemma set_cur_set_cur (st : State) (v w : Z) :
  set_cur (set_cur st v) w = set_cur st w.
Proof. unfold set_cur, with_mem; simpl. rewrite list_insert_insert_eq. reflexivity. Qed.

Lemma set_cur_id (st : State) (v : Z) : cur st = Some v -> set_cur st v = st.
Proof.
  unfold cur, set_cur, with_mem. intros H. rewrite list_insert_id by assumption.
  destruct st; reflexivity.
Qed.

Lemma exec_inc_repeat (k : nat) :
  forall st v fuel, cur st = Some v -> 0 <= v < 256 -> (k < fuel)%nat ->
  exec fuel (repeat Instruction.IncVal k) st =
  Finished (set_cur st ((v + Z.of_nat k) mod 256)).
Proof.
  induction k as [|k IH]; intros st v fuel Hv Hr Hf.
  - destruct fuel as [|fuel]; [lia|]. simpl.
    rewrite Z.add_0_r, Z.mod_small by lia. rewrite set_cur_id by assumption.
    reflexivity.
  - destruct fuel as [|fuel]; [lia|]. simpl. rewrite Hv.
    assert (Hv' : cur (set_cur st (wrapping_add v 1)) = Some (wrapping_add v 1))
      by (eapply cur_set_cur; eassumption).
    rewrite (IH _ _ fuel Hv') by (unfold wrapping_add; try apply Z.mod_pos_bound; lia).
    rewrite set_cur_set_cur. unfold wrapping_add. f_equal. f_equal.
    rewrite Zplus_mod_idemp_l. f_equal. lia.
Qed.

Lemma exec_cons_step (fuel : nat) (x : Instruction.t) (rest : list Instruction.t) (st : State) :
  (forall body, x <> Instruction.Loop body) ->
  exec (S fuel) (x :: rest) st =
  match step x st with Panic s => Panicked s | Next st' => exec fuel rest st' end.
Proof.
  intros Hx. destruct x; try reflexivity. exfalso; eapply Hx; reflexivity.
Qed.

Lemma exec_single_finished (fuel : nat) (x : Instruction.t) (st st' : State) :
  (forall body, x <> Instruction.Loop body) ->
  exec fuel [x] st = Finished st' -> step x st = Next st'.
Proof.
  intros Hx H. destruct fuel as [|[|fuel]]; [discriminate| |].
  - rewrite exec_cons_step in H by assumption.
    destruct (step x st); discriminate.
  - rewrite exec_cons_step in H by assumption.
    destruct (step x st); simpl in H; congruence.
Qed.

Ltac not_loop := let b := fresh "body" in intros b; discriminate.

(** Claim C2 (as amended): from a zeroed tape at pointer 0, the program
    "MoO MoO MoO OOM" halts normally and writes the decimal text of the
    cell value 3, i.e. the single byte 51 (the character '3'), not the byte
    3; the cell holds 3 afterwards and the pointer and register are as
    allocated. *)
Theorem scenario_a_writes_decimal (fuel : nat) (input : list Z) :
  (5 <= fuel)%nat ->
  run fuel (chars "MoO MoO MoO OOM") input =
  Ran (Finished (mkState (<[0%nat := 3]> (replicate MEM_SIZE 0)) 0 (mkRegister 0 true) input [51])).
Proof.
  intros Hf. unfold run.
  assert (Hp : parse (lex (chars "MoO MoO MoO OOM")) =
               Some [Instruction.IncVal; Instruction.IncVal; Instruction.IncVal; Instruction.Write])
    by (vm_compute; reflexivity).
  rewrite Hp. f_equal.
  apply (exec_more_fuel 5); [vm_compute; reflexivity | discriminate | exact Hf].
Qed.

Lemma scenario_a_writes_decimal_witness :
  (5 <= 5)%nat /\
  run 5 (chars "MoO MoO MoO OOM") [] =
  Ran (Finished (mkState (<[0%nat := 3]> (replicate MEM_SIZE 0)) 0 (mkRegister 0 true) [] [51])).
Proof. split; [lia | apply (scenario_a_writes_decimal 5 []); lia]. Defined.

(** Claim C2 (refuted as stated): no amount of fuel makes the program
    "MoO MoO MoO OOM" halt having written exactly the single byte 3. *)
Lemma scenario_a_not_raw_byte :
  ~ exists fuel st, run fuel (chars "MoO MoO MoO OOM") [] = Ran (Finished st) /\ stdout st = [3].
Proof.
  intros (fuel & st & Hrun & Hout).
  unfold run in Hrun.
  assert (Hp : parse (lex (chars "MoO MoO MoO OOM")) =
               Some [Instruction.IncVal; Instruction.IncVal; Instruction.IncVal; Instruction.Write])
    by (vm_compute; reflexivity).
  rewrite Hp in Hrun. injection Hrun as Hrun.
  set (P := [Instruction.IncVal; Instruction.IncVal; Instruction.IncVal; Instruction.Write]) in *.
  assert (H5 : exec 5 P (init_state []) =
               Finished (mkState (<[0%nat := 3]> (replicate MEM_SIZE 0)) 0 (mkRegister 0 true) [] [51]))
    by (vm_compute; reflexivity).
  pose proof (exec_more_fuel _ _ _ _ Hrun ltac:(discriminate) (fuel + 5) ltac:(lia)) as A.
  pose proof (exec_more_fuel _ _ _ _ H5 ltac:(discriminate) (fuel + 5) ltac:(lia)) as B.
  rewrite A in B. injection B as B. subst st. simpl in Hout. discriminate.
Qed.

(** Claim C3 (as amended): [DecPtr] at pointer 0 panics at that
    instruction (the [usize] subtraction overflows) and otherwise moves the
    pointer down by one; [IncPtr] below [usize::MAX] (so at 2999 too)
    never panics and moves the pointer up by one, even past the last tape
    index; a pointer outside the tape only faults at the next instruction
    that reads or writes [mem[*ptr]], i.e. any instruction other than the
    two pointer moves: with the state unchanged, except that a [Read] has
    first consumed one input byte, if there was one. *)
Theorem pointer_moves (fuel : nat) (rest : list Instruction.t) (st : State) :
  0 <= ptr st ->
  (ptr st = 0 -> exec (S fuel) (Instruction.DecPtr :: rest) st = Panicked st) /\
  (0 < ptr st ->
   exec (S fuel) (Instruction.DecPtr :: rest) st = exec fuel rest (with_ptr st (ptr st - 1))) /\
  (ptr st < USIZE_MAX ->
   exec (S fuel) (Instruction.IncPtr :: rest) st = exec fuel rest (with_ptr st (ptr st + 1))) /\
  (cur st = None ->
   (forall x, x <> Instruction.DecPtr -> x <> Instruction.IncPtr -> x <> Instruction.Read ->
      exec (S fuel) (x :: rest) st = Panicked st) /\
   exec (S fuel) (Instruction.Read :: rest) st = Panicked (with_stdin st (tl (stdin st)))).
Proof.
  intros Hnn. split; [|split; [|split]].
  - intros H0. simpl. rewrite H0. reflexivity.
  - intros Hpos. simpl. replace (ptr st =? 0) with false by lia. reflexivity.
  - intros Hlt. simpl. replace (ptr st =? USIZE_MAX) with false by lia. reflexivity.
  - intros Hnone. split.
    + intros x Hd Hi Hr. destruct x; try congruence; simpl; rewrite ?Hnone; reflexivity.
    + cbn [exec step]. unfold read_exact.
      destruct st as [m p r inp out]; cbn [stdin] in *.
      destruct inp as [|b inp]; [reflexivity|].
      unfold cur in *; cbn in *. rewrite Hnone. reflexivity.
Qed.

Lemma pointer_moves_witness :
  0 <= ptr (mkState (replicate MEM_SIZE 0) 2999 (mkRegister 0 true) [] []) /\
  exec 2 [Instruction.IncPtr; Instruction.IncVal]
    (mkState (replicate MEM_SIZE 0) 2999 (mkRegister 0 true) [] []) =
  exec 1 [Instruction.IncVal] (mkState (replicate MEM_SIZE 0) 3000 (mkRegister 0 true) [] []).
Proof.
  split; [simpl; lia|].
  destruct (pointer_moves 1 [Instruction.IncVal]
              (mkState (replicate MEM_SIZE 0) 2999 (mkRegister 0 true) [] [])
              ltac:(simpl; lia)) as (_ & _ & H & _).
  exact (H ltac:(unfold USIZE_MAX; simpl; lia)).
Defined.

(** Claim C3 (refuted as stated): on the 3000-cell tape with the pointer at
    the last index 2999, [IncPtr] is not fatal: it halts normally with the
    pointer at 3000. *)
Lemma inc_ptr_at_last_index_not_fatal :
  exec 2 [Instruction.IncPtr] (mkState (replicate MEM_SIZE 0) 2999 (mkRegister 0 true) [] []) =
  Finished (mkState (replicate MEM_SIZE 0) 3000 (mkRegister 0 true) [] []).
Proof. reflexivity. Qed.

(** Claim C5: for a cell holding a byte [v], 256 [IncVal]s give back the
    same state (so the cell holds [v] again), and [IncVal] then [DecVal],
    or [DecVal] then [IncVal], give back the same state; none of them
    faults. *)
Theorem value_inc_dec_wrap (st : State) (v : Z) (fuel : nat) :
  cur st = Some v -> 0 <= v < 256 -> (256 < fuel)%nat ->
  exec fuel (repeat Instruction.IncVal 256) st = Finished st /\
  exec fuel [Instruction.IncVal; Instruction.DecVal] st = Finished st /\
  exec fuel [Instruction.DecVal; Instruction.IncVal] st = Finished st.
Proof.
  intros Hv Hr Hf. split; [|split].
  - rewrite (exec_inc_repeat 256 st v fuel Hv Hr Hf).
    replace ((v + Z.of_nat 256) mod 256) with v.
    + rewrite set_cur_id by assumption. reflexivity.
    + rewrite <- Zplus_mod_idemp_r. rewrite Z.mod_same by lia.
      rewrite Z.add_0_r, Z.mod_small; lia.
  - destruct fuel as [|[|[|fuel]]]; try lia.
    rewrite exec_cons_step by not_loop. simpl step at 1. rewrite Hv.
    rewrite exec_cons_step by not_loop. simpl step at 1.
    rewrite (cur_set_cur _ _ _ Hv). rewrite set_cur_set_cur.
    unfold wrapping_sub, wrapping_add. rewrite Zminus_mod_idemp_l.
    replace (v + 1 - 1) with v by lia. rewrite Z.mod_small by lia.
    rewrite set_cur_id by assumption. reflexivity.
  - destruct fuel as [|[|[|fuel]]]; try lia.
    rewrite exec_cons_step by not_loop. simpl step at 1. rewrite Hv.
    rewrite exec_cons_step by not_loop. simpl step at 1.
    rewrite (cur_set_cur _ _ _ Hv). rewrite set_cur_set_cur.
    unfold wrapping_sub, wrapping_add. rewrite Zplus_mod_idemp_l.
    replace (v - 1 + 1) with v by lia. rewrite Z.mod_small by lia.
    rewrite set_cur_id by assumption. reflexivity.
Qed.

Lemma value_inc_dec_wrap_witness :
  cur (init_state []) = Some 0 /\ 0 <= 0 < 256 /\ (256 < 257)%nat /\
  exec 257 (repeat Instruction.IncVal 256) (init_state []) = Finished (init_state []) /\
  exec 257 [Instruction.IncVal; Instruction.DecVal] (init_state []) = Finished (init_state []) /\
  exec 257 [Instruction.DecVal; Instruction.IncVal] (init_state []) = Finished (init_state []).
Proof.
  split; [reflexivity|]. split; [lia|]. split; [lia|].
  apply (value_inc_dec_wrap (init_state []) 0 257); [reflexivity | lia | lia].
Defined.

Lemma cur_with_reg (st : State) (r : Register) : cur (with_reg st r) = cur st.
Proof. reflexivity. Qed.

Lemma set_cur_with_reg (st : State) (r : Register) (w : Z) :
  set_cur (with_reg st r) w = with_reg (set_cur st w) r.
Proof. reflexivity. Qed.

Lemma with_reg_with_reg (st : State) (r r' : Register) :
  with_reg (with_reg st r) r' = with_reg st r'.
Proof. reflexivity. Qed.

Lemma step_reg_access (st : State) (v : Z) :
  cur st = Some v ->
  step Instruction.RegAccess st =
  Next (if empty (reg st) then with_reg st (mkRegister v false)
        else with_reg (set_cur st (value (reg st))) (mkRegister (value (reg st)) true)).
Proof. intros H. unfold step. rewrite H. destruct (empty (reg st)); reflexivity. Qed.

(** Claim C6 (as amended): two [RegAccess] in a row on a cell holding [v]
    leave the whole state as it was, the register empty again (keeping [v]
    as its stale value), when the register starts empty; when it starts
    holding [r], they leave [r] in the cell and the register holding [r]. *)
Theorem reg_access_twice (st : State) (v : Z) (fuel : nat) :
  cur st = Some v -> (2 < fuel)%nat ->
  exec fuel [Instruction.RegAccess; Instruction.RegAccess] st =
  Finished (if empty (reg st) then with_reg st (mkRegister v true)
            else with_reg (set_cur st (value (reg st))) (mkRegister (value (reg st)) false)).
Proof.
  intros Hv Hf. destruct fuel as [|[|[|fuel]]]; try lia.
  rewrite exec_cons_step by not_loop. rewrite (step_reg_access _ _ Hv).
  destruct (reg st) as [r e] eqn:Hreg; destruct e; cbn [empty value].
  - rewrite exec_cons_step by not_loop.
    rewrite (step_reg_access _ v) by (rewrite cur_with_reg; assumption). cbn [empty value reg with_reg].
    rewrite set_cur_with_reg, with_reg_with_reg, (set_cur_id _ _ Hv). reflexivity.
  - rewrite exec_cons_step by not_loop.
    rewrite (step_reg_access _ r)
      by (rewrite cur_with_reg; eapply cur_set_cur; eassumption).
    cbn [empty value reg with_reg]. rewrite with_reg_with_reg. reflexivity.
Qed.

Lemma reg_access_twice_witness :
  cur (init_state []) = Some 0 /\ (2 < 3)%nat /\
  exec 3 [Instruction.RegAccess; Instruction.RegAccess] (init_state []) =
  Finished (with_reg (init_state []) (mkRegister 0 true)).
Proof.
  split; [reflexivity|]. split; [lia|].
  apply (reg_access_twice (init_state []) 0 3); [reflexivity | lia].
Defined.

(** Claim C6 (refuted as stated): with the register holding 5 and the
    cell at the pointer holding 0, two [RegAccess] in a row leave 5 in the
    cell and the register not empty. *)
Lemma reg_access_twice_filled_register :
  ~ (forall st v st',
       cur st = Some v ->
       exec 3 [Instruction.RegAccess; Instruction.RegAccess] st = Finished st' ->
       cur st' = Some v /\ empty (reg st') = true).
Proof.
  intros H.
  destruct (H (mkState (replicate MEM_SIZE 0) 0 (mkRegister 5 false) [] []) 0
              (mkState (<[0%nat := 5]> (replicate MEM_SIZE 0)) 0 (mkRegister 5 false) [] [])
              eq_refl eq_refl) as [H1 _].
  discriminate H1.
Qed.

Lemma lex_tokens_noise (elements : list (list Z)) (lexed : list Command.t) :
  Forall (fun element => command_of_token element = None) elements ->
  lex_tokens lexed elements = lexed.
Proof.
  intros Hall. revert lexed. induction Hall as [|e es He _ IH]; intros lexed.
  - reflexivity.
  - simpl. rewrite He. apply IH.
Qed.

(** Claim C7: if every whitespace-separated token of the source is none
    of the twelve opcode strings, [lex] yields no command, [parse] yields
    the empty tree, executing the empty tree halts at once with the state
    unchanged, and the whole run ends normally with the allocated state
    (zeroed tape, pointer 0, empty register, input unread, no output). *)
Theorem noise_only_source (contents : list Z) :
  Forall (fun element => command_of_token element = None) (split_whitespace contents) ->
  lex contents = [] /\ parse (lex contents) = Some [] /\
  (forall fuel st, exec (S fuel) [] st = Finished st) /\
  (forall fuel input, run (S fuel) contents input = Ran (Finished (init_state input))).
Proof.
  intros Hall.
  assert (Hlex : lex contents = []) by (apply lex_tokens_noise; exact Hall).
  split; [exact Hlex|]. split; [rewrite Hlex; reflexivity|].
  split; [reflexivity|].
  intros fuel input. unfold run. rewrite Hlex. reflexivity.
Qed.

Lemma noise_only_source_witness :
  Forall (fun element => command_of_token element = None)
    (split_whitespace (chars "hello  world moo-moo	MOOO")) /\
  lex (chars "hello  world moo-moo	MOOO") = [].
Proof.
  assert (H : Forall (fun element => command_of_token element = None)
                (split_whitespace (chars "hello  world moo-moo	MOOO")))
    by (vm_compute; repeat constructor).
  split; [exact H | apply (noise_only_source _ H)].
Defined.

(** Claim C8: [ExecVal] ([todo!()]) panics whenever it is reached, in
    every state. *)
Theorem exec_val_always_panics (fuel : nat) (rest : list Instruction.t) (st : State) :
  exec (S fuel) (Instruction.ExecVal :: rest) st = Panicked st.
Proof. reflexivity. Qed.

Lemma set_cur_frame (st : State) (w : Z) :
  ptr (set_cur st w) = ptr st /\ length (mem (set_cur st w)) = length (mem st) /\
  (forall j, j <> Z.to_nat (ptr st) -> mem (set_cur st w) !! j = mem st !! j).
Proof.
  unfold set_cur, with_mem; simpl. split; [reflexivity|]. split.
  - apply length_insert.
  - intros j Hj. apply list_lookup_insert_ne. congruence.
Qed.

(** Claim C10: an [IncVal], [DecVal], [ZeroVal], [Read] or [RegAccess]
    that completes leaves the pointer, the tape length and every cell
    other than [mem[*ptr]] unchanged; a [RegAccess] with an empty register
    changes nothing but the register. *)
Theorem single_step_frame (x : Instruction.t) (fuel : nat) (st st' : State) :
  In x [Instruction.IncVal; Instruction.DecVal; Instruction.ZeroVal;
        Instruction.Read; Instruction.RegAccess] ->
  exec fuel [x] st = Finished st' ->
  ptr st' = ptr st /\ length (mem st') = length (mem st) /\
  (forall j, j <> Z.to_nat (ptr st) -> mem st' !! j = mem st !! j) /\
  (x = Instruction.RegAccess -> empty (reg st) = true -> exists r, st' = with_reg st r).
Proof.
  intros Hin Hrun.
  assert (Hstep : step x st = Next st').
  { apply (exec_single_finished fuel); [|exact Hrun].
    intros body ->. simpl in Hin. intuition discriminate. }
  simpl in Hin.
  destruct Hin as [<- | [<- | [<- | [<- | [<- | []]]]]]; unfold step in Hstep.
  - destruct (cur st) as [v|]; [|discriminate]. injection Hstep as <-.
    split; [|split; [|split]]; try apply set_cur_frame. discriminate.
  - destruct (cur st) as [v|]; [|discriminate]. injection Hstep as <-.
    split; [|split; [|split]]; try apply set_cur_frame. discriminate.
  - destruct (cur st) as [v|]; [|discriminate]. injection Hstep as <-.
    split; [|split; [|split]]; try apply set_cur_frame. discriminate.
  - unfold read_exact in Hstep. destruct (stdin st) as [|b inp]; [discriminate|].
    unfold cur in Hstep. cbn [mem ptr] in Hstep.
    destruct (mem st !! Z.to_nat (ptr st)); [|discriminate]. injection Hstep as <-.
    pose proof (set_cur_frame (mkState (mem st) (ptr st) (reg st) inp (stdout st)) b) as Hf.
    cbn [mem ptr] in Hf.
    split; [|split; [|split]]; try apply Hf. discriminate.
  - destruct (cur st) as [v|]; [|discriminate].
    destruct (empty (reg st)) eqn:He; injection Hstep as <-.
    + split; [|split; [|split]]; [reflexivity | reflexivity | reflexivity |].
      intros _ _. eexists. reflexivity.
    + pose proof (set_cur_frame st (value (reg st))) as Hf.
      unfold with_reg; simpl. split; [|split; [|split]]; try apply Hf.
      intros _ ?; congruence.
Qed.

Lemma single_step_frame_witness :
  In Instruction.RegAccess [Instruction.IncVal; Instruction.DecVal; Instruction.ZeroVal;
                            Instruction.Read; Instruction.RegAccess] /\
  exec 2 [Instruction.RegAccess] (init_state []) =
    Finished (with_reg (init_state []) (mkRegister 0 false)) /\
  exists r, with_reg (init_state []) (mkRegister 0 false) = with_reg (init_state []) r.
Proof.
  assert (Hin : In Instruction.RegAccess [Instruction.IncVal; Instruction.DecVal;
                 Instruction.ZeroVal; Instruction.Read; Instruction.RegAccess])
    by (simpl; tauto).
  assert (Hrun : exec 2 [Instruction.RegAccess] (init_state []) =
                 Finished (with_reg (init_state []) (mkRegister 0 false)))
    by reflexivity.
  split; [exact Hin|]. split; [exact Hrun|].
  destruct (single_step_frame _ _ _ _ Hin Hrun) as (_ & _ & _ & H).
  exact (H eq_refl eq_refl).
Defined.

(** Claim C9: within one run of [parse]'s loop, the command right after a
    [LoopStart] is skipped whatever it is: the scan continues two places
    further with the level one higher and no instruction pushed; so a
    [LoopEnd] right after a [LoopStart] neither lowers the level nor
    closes the loop, and "MOO moo" parses to the empty tree. *)
Theorem loop_start_skips_next
  (parse_rec : list Command.t -> option (list Instruction.t))
  (commands : list Command.t) (i : nat) (c : Command.t) (rest : list Command.t) (st : PState) :
  skip_next st = false ->
  scan parse_rec commands i (Command.LoopStart :: c :: rest) st =
  scan parse_rec commands (S (S i)) rest
    (mkPState (instructions st) (S (loop_level st))
              (if Nat.eqb (loop_level st) 0 then i else loop_start st) false) /\
  parse [Command.LoopStart; Command.LoopEnd] = Some [].
Proof.
  intros Hskip. split; [|reflexivity].
  destruct st as [instrs lvl start skip]; simpl in Hskip; subst skip.
  destruct lvl; reflexivity.
Qed.

Lemma loop_start_skips_next_witness :
  skip_next parse_init = false /\
  scan parse [Command.LoopStart; Command.LoopEnd; Command.LoopEnd] 0
    [Command.LoopStart; Command.LoopEnd; Command.LoopEnd] parse_init =
  scan parse [Command.LoopStart; Command.LoopEnd; Command.LoopEnd] 2
    [Command.LoopEnd] (mkPState [] 1 0 false).
Proof.
  split; [reflexivity|].
  apply (loop_start_skips_next parse [Command.LoopStart; Command.LoopEnd; Command.LoopEnd]
           0 Command.LoopEnd [Command.LoopEnd] parse_init).
  reflexivity.
Defined.

(** ** The parser *)

Lemma depth_walk_split (l : list Command.t) :
  forall k d e, depth_walk (k + S d) l = Some e -> (e <= d)%nat ->
  exists b r, l = b ++ Command.LoopEnd :: r /\
              depth_walk k b = Some O /\ depth_walk d r = Some e.
Proof.
  induction l as [|c l IH]; intros k d e H He.
  - simpl in H. injection H as <-. lia.
  - destruct c; simpl in H;
      try (destruct (IH k d e H He) as (b & r & -> & Hb & Hr);
           lazymatch goal with |- exists _ _, ?c :: _ = _ /\ _ => exists (c :: b), r end;
           split; [reflexivity | split; [exact Hb | exact Hr]]).
    + (* LoopEnd *)
      rewrite Nat.add_succ_r in H. destruct k as [|k].
      * exists [], l. split; [reflexivity | split; [reflexivity | exact H]].
      * simpl in H. replace (S (k + d)) with (k + S d)%nat in H by lia.
        destruct (IH k d e H He) as (b & r & -> & Hb & Hr).
        exists (Command.LoopEnd :: b), r. split; [reflexivity | split; [exact Hb | exact Hr]].
    + (* LoopStart *)
      destruct (IH (S k) d e H He) as (b & r & -> & Hb & Hr).
      exists (Command.LoopStart :: b), r. split; [reflexivity | split; [exact Hb | exact Hr]].
Qed.

Lemma starts_followed_by_op_split (x y : list Command.t) :
  forall f, starts_followed_by_op f (x ++ Command.LoopEnd :: y) = true ->
  starts_followed_by_op f x = true /\ starts_followed_by_op false y = true.
Proof.
  induction x as [|c x IH]; intros f H.
  - destruct f; simpl in H; [discriminate | split; [reflexivity | exact H]].
  - simpl in H. apply andb_true_iff in H as [Hc Hr].
    destruct (IH _ Hr) as [Hx Hy]. split; [simpl; rewrite Hc, Hx; reflexivity | exact Hy].
Qed.

Lemma starts_followed_by_op_weaken (l : list Command.t) :
  starts_followed_by_op true l = true -> starts_followed_by_op false l = true.
Proof.
  destruct l as [|c l]; simpl; [reflexivity|].
  intros H. apply andb_true_iff in H as [_ H]. exact H.
Qed.

Lemma drop_markers_app (x y : list Command.t) :
  drop_markers (x ++ y) = drop_markers x ++ drop_markers y.
Proof.
  induction x as [|c x IH]; simpl; [reflexivity|].
  destruct (is_loop_marker c); rewrite IH; reflexivity.
Qed.

Lemma flatten_instr_loop (body : list Instruction.t) :
  flatten_instr (Instruction.Loop body) = flatten body.
Proof.
  induction body as [|x body IH]; [reflexivity|].
  simpl in *. rewrite IH. reflexivity.
Qed.

Lemma drop_shift (commands x r : list Command.t) (i : nat) :
  drop i commands = x ++ r -> drop (i + length x) commands = r.
Proof.
  intros H. rewrite <- drop_drop, H. rewrite drop_app_length. reflexivity.
Qed.

(** Inside a loop (level above 0) the scan only counts the markers: over a
    segment whose depth never drops below its start, and whose loop starts
    are each followed by an ordinary command, it pushes nothing. *)
Lemma scan_inner (parse_rec : list Command.t -> option (list Instruction.t))
  (commands seg : list Command.t) :
  forall i d e b L s instrs rest,
  depth_walk d seg = Some e -> starts_followed_by_op b seg = true ->
  scan parse_rec commands i (seg ++ rest) (mkPState instrs (S (L + d)) s b) =
  scan parse_rec commands (i + length seg) rest (mkPState instrs (S (L + e)) s false).
Proof.
  induction seg as [|c seg IH]; intros i d e b L s instrs rest Hd Hs.
  - simpl in Hd. injection Hd as <-. destruct b; [discriminate|].
    simpl. rewrite Nat.add_0_r. reflexivity.
  - simpl in Hs. apply andb_true_iff in Hs as [Hc Hs].
    replace (i + length (c :: seg))%nat with (S i + length seg)%nat by (simpl; lia).
    destruct b.
    + destruct c; simpl in Hc; try discriminate; simpl in Hd, Hs; simpl;
        apply IH; assumption.
    + destruct c; simpl in Hd, Hs; simpl; try (apply IH; assumption).
      * (* LoopEnd *)
        destruct d as [|d]; [discriminate|].
        rewrite Nat.add_succ_r. simpl. apply IH; assumption.
      * (* LoopStart *)
        replace (S (S (L + d))) with (S (L + S d)) by lia. apply IH; assumption.
Qed.

Lemma scan_loop_start (parse_rec : list Command.t -> option (list Instruction.t))
  (commands rest : list Command.t) (i s : nat) (instrs : list Instruction.t) :
  scan parse_rec commands i (Command.LoopStart :: rest) (mkPState instrs 0 s false) =
  scan parse_rec commands (S i) rest (mkPState instrs 1 i true).
Proof. reflexivity. Qed.

Lemma scan_loop_close (parse_rec : list Command.t -> option (list Instruction.t))
  (commands rest : list Command.t) (j s : nat) (instrs : list Instruction.t) :
  scan parse_rec commands j (Command.LoopEnd :: rest) (mkPState instrs 1 s false) =
  match parse_rec (slice commands (s + 1) j) with
  | None => None
  | Some body =>
      scan parse_rec commands (S j) rest (mkPState (instrs ++ [Instruction.Loop body]) 0 s false)
  end.
Proof. reflexivity. Qed.

Section TopLevel.
Variable parse_rec : list Command.t -> option (list Instruction.t).
Variable commands : list Command.t.
Variable N : nat.
(** The recursive call is right on every well-nested sequence shorter
    than [N] whose loop starts are each followed by an ordinary command. *)
Hypothesis parse_rec_ok : forall l, (length l < N)%nat ->
  depth_walk 0 l = Some 0%nat -> starts_followed_by_op false l = true ->
  exists t, parse_rec l = Some t /\ flatten t = drop_markers l.

(** At level 0 the scan turns a well-nested prefix into instructions whose
    flattening is the prefix without its markers, and ends at level 0. *)
Lemma scan_top (n : nat) :
  forall pre rest i instrs s, (length pre < n)%nat -> (length pre <= N)%nat ->
  depth_walk 0 pre = Some 0%nat -> starts_followed_by_op false pre = true ->
  drop i commands = pre ++ rest ->
  exists t s',
    scan parse_rec commands i (pre ++ rest) (mkPState instrs 0 s false) =
    scan parse_rec commands (i + length pre) rest (mkPState (instrs ++ t) 0 s' false)
    /\ flatten t = drop_markers pre.
Proof.
  induction n as [|n IHn]; intros pre rest i instrs s Hn HN Hd Hs Hdrop; [lia|].
  destruct pre as [|c pre].
  { exists [], s. rewrite app_nil_r, Nat.add_0_r. split; reflexivity. }
  assert (Hdrop1 : drop (S i) commands = pre ++ rest).
  { rewrite <- Nat.add_1_r. apply (drop_shift commands [c]). exact Hdrop. }
  destruct c; simpl in Hd, Hs;
    try (simpl; lazymatch goal with |- context [instrs ++ [?x]] =>
         destruct (IHn pre rest (S i) (instrs ++ [x]) s ltac:(simpl in Hn; lia)
                     ltac:(simpl in HN; lia) Hd Hs Hdrop1) as (t & s' & Heq & Hf);
         exists (x :: t), s'; rewrite Heq; split;
         [ replace (S i + length pre)%nat with (i + S (length pre))%nat by lia;
           rewrite <- app_assoc; reflexivity
         | simpl; rewrite Hf; reflexivity ] end).
  - (* LoopEnd *) discriminate.
  - (* LoopStart *)
    destruct (depth_walk_split pre 0 0 0 Hd ltac:(lia)) as (b & r & -> & Hb & Hr).
    destruct (starts_followed_by_op_split b r true Hs) as [Hsb Hsr].
    simpl app. rewrite scan_loop_start, <- app_assoc. simpl app.
    pose proof (scan_inner parse_rec commands b (S i) 0 0 true 0 i instrs
                  (Command.LoopEnd :: r ++ rest) Hb Hsb) as Hin.
    change (S (0 + 0)) with 1%nat in Hin. rewrite Hin.
    rewrite scan_loop_close.
    assert (Hslice : slice commands (i + 1) (S i + length b) = b).
    { unfold slice. rewrite <- Nat.add_1_r in Hdrop1. rewrite Hdrop1, <- app_assoc.
      replace (S i + length b - (i + 1))%nat with (length b) by lia.
      apply take_app_length. }
    rewrite Hslice.
    simpl in HN, Hn. rewrite length_app in HN, Hn. simpl in HN, Hn.
    destruct (parse_rec_ok b ltac:(lia) Hb (starts_followed_by_op_weaken b Hsb)) as (tb & Htb & Hftb).
    rewrite Htb.
    assert (Hdrop2 : drop (S (S i + length b)) commands = r ++ rest).
    { replace (S (S i + length b))%nat with (S i + length (b ++ [Command.LoopEnd]))%nat
        by (rewrite length_app; simpl; lia).
      apply drop_shift. rewrite Hdrop1, <- !app_assoc. reflexivity. }
    destruct (IHn r rest (S (S i + length b)) (instrs ++ [Instruction.Loop tb]) i
                ltac:(lia) ltac:(lia) Hr Hsr Hdrop2) as (t & s' & Heq & Hf).
    exists (Instruction.Loop tb :: t), s'. rewrite Heq. split.
    + rewrite <- app_assoc. simpl. rewrite length_app. simpl. f_equal. lia.
    + cbn [flatten]. rewrite flatten_instr_loop, Hftb, Hf.
      cbn [drop_markers is_loop_marker]. rewrite drop_markers_app. reflexivity.
Qed.
End TopLevel.

Lemma parse_fuel_roundtrip (n : nat) :
  forall cs, (length cs < n)%nat -> depth_walk 0 cs = Some 0%nat ->
  starts_followed_by_op false cs = true ->
  exists t, parse_fuel n cs = Some t /\ flatten t = drop_markers cs.
Proof.
  induction n as [|n IHn]; intros cs Hn Hd Hs; [lia|].
  cbn [parse_fuel]. unfold parse_init.
  destruct (scan_top (parse_fuel n) cs (length cs)
              ltac:(intros l Hl Hdl Hsl; apply IHn; [lia | exact Hdl | exact Hsl])
              (S (length cs)) cs [] 0 [] 0 ltac:(lia) ltac:(lia) Hd Hs
              ltac:(rewrite app_nil_r; reflexivity)) as (t & s' & Heq & Hf).
  rewrite app_nil_r in Heq. exists t. split; [rewrite Heq; reflexivity | exact Hf].
Qed.

Lemma scan_ext (rec1 rec2 : list Command.t -> option (list Instruction.t))
  (commands : list Command.t) :
  (forall l, (length l < length commands)%nat -> rec1 l = rec2 l) ->
  forall rest i st, drop i commands = rest ->
  scan rec1 commands i rest st = scan rec2 commands i rest st.
Proof.
  intros Hrec rest. induction rest as [|c rest IH]; intros i st Hdrop; [reflexivity|].
  assert (Hdrop' : drop (S i) commands = rest).
  { rewrite <- Nat.add_1_r. apply (drop_shift commands [c]). exact Hdrop. }
  assert (Hlen : (0 < length commands)%nat).
  { pose proof (f_equal length Hdrop) as E. rewrite length_drop in E. simpl in E. lia. }
  destruct st as [instrs lvl start skip]. simpl.
  destruct skip; [apply IH; exact Hdrop'|].
  destruct (Nat.eqb lvl 0); [destruct c; try reflexivity; apply IH; exact Hdrop'|].
  destruct c; try (apply IH; exact Hdrop').
  destruct (Nat.eqb (Nat.pred lvl) 0); [|apply IH; exact Hdrop'].
  rewrite Hrec.
  - destruct (rec2 _); [apply IH; exact Hdrop' | reflexivity].
  - unfold slice. rewrite length_take, length_drop. lia.
Qed.

(** [parse] does not depend on the unfolding bound once it exceeds the
    length of the input. *)
Lemma parse_fuel_stable (n : nat) :
  forall m cs, (length cs < n)%nat -> (length cs < m)%nat -> parse_fuel n cs = parse_fuel m cs.
Proof.
  induction n as [|n IHn]; intros m cs Hn Hm; [lia|].
  destruct m as [|m]; [lia|]. cbn [parse_fuel].
  apply scan_ext; [|reflexivity].
  intros l Hl. apply IHn; lia.
Qed.

(** Claim C1 (as amended): on a well-nested command sequence in which every
    [LoopStart] is directly followed by a command that is not a loop marker,
    [parse] succeeds and flattening its tree gives back the commands of the
    input other than the loop markers, in order. *)
Theorem parse_roundtrip (cs : list Command.t) :
  well_nested cs = true -> starts_followed_by_op false cs = true ->
  exists t, parse cs = Some t /\ flatten t = drop_markers cs.
Proof.
  intros Hw Hs. unfold well_nested in Hw.
  destruct (depth_walk 0 cs) as [[|d]|] eqn:Hd; try discriminate.
  apply parse_fuel_roundtrip; [lia | exact Hd | exact Hs].
Qed.

Lemma parse_roundtrip_witness :
  well_nested [Command.LoopStart; Command.IncVal; Command.LoopStart; Command.DecVal;
               Command.LoopEnd; Command.LoopEnd; Command.Write] = true /\
  starts_followed_by_op false
    [Command.LoopStart; Command.IncVal; Command.LoopStart; Command.DecVal;
     Command.LoopEnd; Command.LoopEnd; Command.Write] = true /\
  exists t, parse [Command.LoopStart; Command.IncVal; Command.LoopStart; Command.DecVal;
                   Command.LoopEnd; Command.LoopEnd; Command.Write] = Some t /\
            flatten t = drop_markers
              [Command.LoopStart; Command.IncVal; Command.LoopStart; Command.DecVal;
               Command.LoopEnd; Command.LoopEnd; Command.Write].
Proof.
  split; [reflexivity|]. split; [reflexivity|].
  apply parse_roundtrip; reflexivity.
Defined.

(** Claim C1 (refuted as stated): "MOO moo MoO" is well-nested, but the
    [LoopEnd] right after the [LoopStart] is skipped, the loop is never
    closed, and [parse] returns the empty tree, losing the [IncVal]. *)
Lemma parse_roundtrip_fails_after_start :
  ~ (forall cs, well_nested cs = true ->
       exists t, parse cs = Some t /\ flatten t = drop_markers cs).
Proof.
  intros H.
  destruct (H [Command.LoopStart; Command.LoopEnd; Command.IncVal] eq_refl) as (t & Hp & Hf).
  vm_compute in Hp. injection Hp as <-. simpl in Hf. discriminate Hf.
Qed.

(** Claim C4 (as amended): a [LoopEnd] that follows a well-nested prefix
    whose loop starts are each followed by an ordinary command makes
    [parse] panic, so a source that lexes to such a sequence never reaches
    [exec]; in particular the source "moo" fails at parse time. *)
Theorem loop_end_at_level_zero_panics (pre post : list Command.t) :
  well_nested pre = true -> starts_followed_by_op false pre = true ->
  parse (pre ++ Command.LoopEnd :: post) = None /\
  (forall fuel contents input,
     lex contents = pre ++ Command.LoopEnd :: post -> run fuel contents input = ParsePanicked) /\
  (forall fuel input, run fuel (chars "moo") input = ParsePanicked).
Proof.
  intros Hw Hs. unfold well_nested in Hw.
  destruct (depth_walk 0 pre) as [[|d]|] eqn:Hd; try discriminate.
  set (cs := pre ++ Command.LoopEnd :: post).
  assert (Hparse : parse cs = None).
  { unfold parse. cbn [parse_fuel]. unfold parse_init.
    assert (Hlen : length cs = (length pre + S (length post))%nat)
      by (unfold cs; rewrite length_app; reflexivity).
    destruct (scan_top (parse_fuel (length cs)) cs (length cs)
                ltac:(intros l Hl Hdl Hsl; apply parse_fuel_roundtrip; [exact Hl | exact Hdl | exact Hsl])
                (S (length pre)) pre (Command.LoopEnd :: post) 0 [] 0
                ltac:(lia) ltac:(lia) Hd Hs eq_refl) as (t & s' & Heq & _).
    unfold cs in *. rewrite Heq. reflexivity. }
  split; [exact Hparse|]. split.
  - intros fuel contents input Hlex. unfold run. rewrite Hlex. fold cs. rewrite Hparse. reflexivity.
  - intros fuel input. reflexivity.
Qed.

Lemma loop_end_at_level_zero_panics_witness :
  well_nested [Command.IncVal] = true /\ starts_followed_by_op false [Command.IncVal] = true /\
  parse ([Command.IncVal] ++ Command.LoopEnd :: []) = None.
Proof.
  split; [reflexivity|]. split; [reflexivity|].
  apply (loop_end_at_level_zero_panics [Command.IncVal] []); reflexivity.
Defined.

(** Claim C4 (refuted as stated): in "MOO moo MOO moo moo" the last
    [LoopEnd] comes at nesting depth 0, yet [parse] returns the empty tree:
    both [LoopEnd]s right after a [LoopStart] are skipped and the level
    never gets back to 0. *)
Lemma loop_end_at_depth_zero_not_rejected :
  ~ (forall pre post, depth_walk 0 pre = Some 0%nat ->
       parse (pre ++ Command.LoopEnd :: post) = None).
Proof.
  intros H.
  specialize (H [Command.LoopStart; Command.LoopEnd; Command.LoopStart; Command.LoopEnd] []
                eq_refl).
  vm_compute in H. discriminate H.
Qed.

(** ** Further properties of the lexer *)

Lemma split_ws_aux_concat (s : list Z) : forall cur,
  concat (split_ws_aux cur s) = rev cur ++ List.filter (fun c => negb (is_whitespace c)) s.
Proof.
  induction s as [|c s IH]; intros cur; cbn [split_ws_aux List.filter].
  - destruct cur; simpl; [reflexivity | rewrite app_nil_r; reflexivity].
  - destruct (is_whitespace c) eqn:Hw; cbn [negb].
    + destruct cur as [|x cur']; [apply (IH [])|].
      cbn [concat]. rewrite (IH []). reflexivity.
    + rewrite IH. cbn [rev]. rewrite <- app_assoc. reflexivity.
Qed.

Lemma split_ws_aux_tokens (s : list Z) : forall cur,
  Forall (fun c => is_whitespace c = false) cur ->
  Forall (fun t => t <> [] /\ Forall (fun c => is_whitespace c = false) t)
    (split_ws_aux cur s).
Proof.
  induction s as [|c s IH]; intros cur Hcur; cbn [split_ws_aux].
  - destruct cur as [|x cur']; [constructor|].
    constructor; [|constructor]. split.
    + cbn [rev]. destruct (rev cur'); discriminate.
    + apply Forall_rev. exact Hcur.
  - destruct (is_whitespace c) eqn:Hw.
    + destruct cur as [|x cur']; [apply IH; constructor|].
      constructor; [|apply IH; constructor]. split.
      * cbn [rev]. destruct (rev cur'); discriminate.
      * apply Forall_rev. exact Hcur.
    + apply IH. constructor; assumption.
Qed.

(** Extra (split_whitespace): the tokens [lex] looks at are nonempty, hold
    no whitespace, and together are exactly the non-whitespace characters
    of the source, in order: no character is lost or duplicated. *)
Theorem split_whitespace_tokens (s : list Z) :
  concat (split_whitespace s) = List.filter (fun c => negb (is_whitespace c)) s /\
  Forall (fun t => t <> [] /\ Forall (fun c => is_whitespace c = false) t)
    (split_whitespace s).
Proof.
  split; [apply (split_ws_aux_concat s [])|].
  apply split_ws_aux_tokens. constructor.
Qed.

Lemma split_ws_aux_app (a : list Z) : forall cur w b,
  is_whitespace w = true ->
  split_ws_aux cur (a ++ w :: b) = split_ws_aux cur a ++ split_ws_aux [] b.
Proof.
  induction a as [|c a IH]; intros cur w b Hw; cbn [app split_ws_aux].
  - rewrite Hw. destruct cur; reflexivity.
  - destruct (is_whitespace c).
    + destruct cur; rewrite (IH _ w b Hw); reflexivity.
    + apply IH. exact Hw.
Qed.

Lemma lex_tokens_acc (l : list (list Z)) : forall acc,
  lex_tokens acc l = acc ++ lex_tokens [] l.
Proof.
  induction l as [|e l IH]; intros acc; cbn [lex_tokens].
  - rewrite app_nil_r. reflexivity.
  - destruct (command_of_token e); [|apply IH].
    rewrite (IH (acc ++ [t])), (IH ([] ++ [t])). rewrite <- app_assoc. reflexivity.
Qed.

Lemma lex_tokens_app (x : list (list Z)) : forall acc y,
  lex_tokens acc (x ++ y) = lex_tokens (lex_tokens acc x) y.
Proof.
  induction x as [|e x IH]; intros acc y; cbn [app lex_tokens]; [reflexivity|].
  destruct (command_of_token e); apply IH.
Qed.

Lemma lex_app_ws (a b : list Z) (w : Z) :
  is_whitespace w = true -> lex (a ++ w :: b) = lex a ++ lex b.
Proof.
  intros Hw. unfold lex, split_whitespace.
  rewrite (split_ws_aux_app a [] w b Hw), lex_tokens_app, lex_tokens_acc. reflexivity.
Qed.

(** Extra (lex): lexing distributes over source texts joined by a
    whitespace character: the commands of [a ++ w :: b] are those of [a]
    followed by those of [b]. *)
Theorem lex_concat_whitespace (a b : list Z) (w : Z)
  (Hw : is_whitespace w = true) :
  lex (a ++ w :: b) = lex a ++ lex b.
Proof. apply lex_app_ws. exact Hw. Qed.

Lemma lex_concat_whitespace_witness :
  is_whitespace 10 = true /\
  lex (chars "MoO Moo" ++ 10 :: chars "OOM") = lex (chars "MoO Moo") ++ lex (chars "OOM").
Proof.
  split; [reflexivity|]. apply lex_concat_whitespace. reflexivity.
Defined.

(** Extra (lex): every command sequence is the lexing of some source: the
    tokens of its commands, each followed by a space, lex back to it. *)
Theorem lex_unlex (cs : list Command.t) : lex (unlex cs) = cs.
Proof.
  induction cs as [|c cs IH]; [reflexivity|].
  unfold unlex. cbn [map concat]. rewrite <- app_assoc. cbn [app].
  rewrite (lex_app_ws _ _ 32) by reflexivity. fold (unlex cs). rewrite IH.
  destruct c; reflexivity.
Qed.

(** ** Output format *)

Lemma display_u8_digits (v : Z) :
  0 <= v < 256 -> Forall is_digit (display_u8 v).
Proof.
  intros Hv. unfold display_u8, is_digit.
  destruct (v <? 10) eqn:H1; [|destruct (v <? 100) eqn:H2];
    rewrite ?Z.ltb_lt, ?Z.ltb_ge in *;
    repeat constructor; Z.to_euclidean_division_equations; lia.
Qed.

(** Extra (exec, [print!("{}", v)]): a written cell value comes out as one
    to three ASCII decimal digits, without a leading zero, that denote the
    value. *)
Theorem display_u8_decimal (v : Z) (Hv : 0 <= v < 256) :
  Forall is_digit (display_u8 v) /\
  (1 <= length (display_u8 v) <= 3)%nat /\
  decimal_value 0 (display_u8 v) = v /\
  (head (display_u8 v) = Some 48 -> v = 0).
Proof.
  split; [apply display_u8_digits; exact Hv|].
  unfold display_u8.
  destruct (v <? 10) eqn:H1; [|destruct (v <? 100) eqn:H2];
    rewrite ?Z.ltb_lt, ?Z.ltb_ge in *; cbn [decimal_value length head];
    (split; [lia|]); (split; [Z.to_euclidean_division_equations; lia|]);
    intros Hh; injection Hh; Z.to_euclidean_division_equations; lia.
Qed.

Lemma display_u8_decimal_witness :
  (0 <= 205 < 256) /\
  Forall is_digit (display_u8 205) /\ (1 <= length (display_u8 205) <= 3)%nat /\
  decimal_value 0 (display_u8 205) = 205 /\ (head (display_u8 205) = Some 48 -> 205 = 0).
Proof. split; [lia|]. apply display_u8_decimal. lia. Defined.

(** ** [main] *)


(** ** Further properties of the executor *)

(** A step panics in the state it started from, except a [Read] that
    panics after consuming an input byte. *)
Lemma step_panic (x : Instruction.t) (st s : State) :
  step x st = Panic s ->
  s = st \/ (x = Instruction.Read /\ exists b inp, stdin st = b :: inp /\ s = with_stdin st inp).
Proof.
  intros H. destruct x; unfold step in H.
  10: { unfold read_exact in H. destruct (stdin st) as [|b inp] eqn:E.
        - injection H as <-. left. reflexivity.
        - destruct (cur _); [discriminate|]. injection H as <-. right.
          split; [reflexivity|]. exists b, inp. split; reflexivity. }
  all: left; repeat first
    [ discriminate H
    | injection H as <-; reflexivity
    | match type of H with context [match ?e with _ => _ end] => destruct e end ].
Qed.

Section ExecInvariant.
(** A relation between a state and the states reachable from it that every
    non-[Loop] step keeps, up to its next state or its panic state; [exec]
    then keeps it up to any finished or panicked outcome. *)
Variable R : State -> State -> Prop.
Hypothesis R_refl : forall st, R st st.
Hypothesis R_trans : forall st1 st2 st3, R st1 st2 -> R st2 st3 -> R st1 st3.
Hypothesis R_step : forall x st st', step x st = Next st' -> R st st'.
Hypothesis R_panic : forall x st st', step x st = Panic st' -> R st st'.

Lemma exec_rel (n : nat) : forall p st st',
  exec n p st = Finished st' \/ exec n p st = Panicked st' -> R st st'.
Proof.
  induction n as [|n IH]; intros p st st' Hrun; [destruct Hrun; discriminate|].
  destruct p as [|x p]; cbn [exec] in Hrun.
  - destruct Hrun as [H|H]; try discriminate H; injection H as <-; apply R_refl.
  - destruct x;
      try (destruct (step _ st) as [s|s] eqn:Hs;
           [apply (R_trans _ s); [eapply R_step; eassumption | eapply IH; eassumption]
           | destruct Hrun as [H|H]; try discriminate H; injection H as <-;
             eapply R_panic; eassumption]).
    destruct (cur st) as [v|];
      [|destruct Hrun as [H|H]; [discriminate|injection H as <-; apply R_refl]].
    destruct (v =? 0); [eapply IH; eassumption|].
    destruct (exec n body st) as [s|s|] eqn:Hb.
    + apply (R_trans _ s); [apply (IH body); left; exact Hb | eapply IH; eassumption].
    + destruct Hrun as [H|H]; [discriminate|]. injection H as <-.
      apply (IH body). right. exact Hb.
    + destruct Hrun; discriminate.
Qed.
End ExecInvariant.

(** The part of the state [exec] only changes in one direction. *)
Definition io_frame (st st' : State) : Prop :=
  length (mem st') = length (mem st) /\
  (exists out, stdout st' = stdout st ++ out) /\
  (exists consumed, stdin st = consumed ++ stdin st').

Lemma io_frame_step (x : Instruction.t) (st st' : State) :
  step x st = Next st' -> io_frame st st'.
Proof.
  assert (Hid : io_frame st st).
  { split; [reflexivity|]. split; exists []; rewrite ?app_nil_r; reflexivity. }
  assert (Hset : forall w, io_frame st (set_cur st w)).
  { intros w. split; [apply set_cur_frame|]. split; exists []; rewrite ?app_nil_r; reflexivity. }
  assert (Hwrite : forall v, io_frame st (write_out st v)).
  { intros v. split; [reflexivity|]. split; [eexists; reflexivity|exists []; reflexivity]. }
  assert (Hread : forall b st1, read_exact st = Some (b, st1) -> io_frame st (set_cur st1 b)).
  { unfold read_exact. intros b st1 H. destruct (stdin st) as [|b' inp] eqn:Hin; [discriminate|].
    injection H as <- <-. split; [apply length_insert|].
    split; [exists []; rewrite app_nil_r; reflexivity | exists [b']; exact Hin]. }
  destruct x; unfold step; intros Hs;
    try (destruct (cur st) as [v|]; [|discriminate]).
  - destruct (ptr st =? 0); [discriminate|]. injection Hs as <-. exact Hid.
  - destruct (ptr st =? USIZE_MAX); [discriminate|]. injection Hs as <-. exact Hid.
  - discriminate.
  - destruct (v =? 0).
    + destruct (read_exact st) as [[b st1]|] eqn:E; [|discriminate].
      injection Hs as <-. apply Hread. first [exact E | reflexivity].
    + injection Hs as <-. apply Hwrite.
  - injection Hs as <-. apply Hset.
  - injection Hs as <-. apply Hset.
  - injection Hs as <-. apply Hset.
  - destruct (empty (reg st)); injection Hs as <-; [exact Hid|apply Hset].
  - injection Hs as <-. apply Hwrite.
  - destruct (read_exact st) as [[b st1]|] eqn:E; [|discriminate].
    destruct (cur st1); [|discriminate]. injection Hs as <-. apply Hread. first [exact E | reflexivity].
  - injection Hs as <-. exact Hid.
Qed.

Lemma io_frame_panic (x : Instruction.t) (st s : State) :
  step x st = Panic s -> io_frame st s.
Proof.
  intros H. destruct (step_panic x st s H) as [-> | [_ (b & inp & Hin & ->)]].
  - split; [reflexivity|]. split; exists []; rewrite ?app_nil_r; reflexivity.
  - split; [reflexivity|]. split; [exists []; rewrite app_nil_r; reflexivity|].
    exists [b]. exact Hin.
Qed.

(** Extra (exec): whether it finishes or panics, a run never resizes the
    tape, only appends to standard output, and only consumes standard
    input from the front. *)
Theorem exec_io_frame (fuel : nat) (p : list Instruction.t) (st st' : State)
  (Hrun : exec fuel p st = Finished st' \/ exec fuel p st = Panicked st') :
  io_frame st st'.
Proof.
  refine (exec_rel io_frame _ _ io_frame_step io_frame_panic fuel p st st' Hrun).
  - intros s. split; [reflexivity|]. split; exists []; rewrite ?app_nil_r; reflexivity.
  - intros s1 s2 s3 [L1 [[o1 O1] [i1 I1]]] [L2 [[o2 O2] [i2 I2]]].
    split; [congruence|]. split.
    + exists (o1 ++ o2). rewrite O2, O1, app_assoc. reflexivity.
    + exists (i1 ++ i2). rewrite I1, I2, app_assoc. reflexivity.
Qed.

Lemma exec_io_frame_witness :
  (exec 3 [Instruction.Read; Instruction.Write] (init_state [7]) =
     Finished (mkState (<[0%nat := 7]> (replicate MEM_SIZE 0)) 0 (mkRegister 0 true) [] [55])
   \/ exec 3 [Instruction.Read; Instruction.Write] (init_state [7]) =
     Panicked (mkState (<[0%nat := 7]> (replicate MEM_SIZE 0)) 0 (mkRegister 0 true) [] [55])) /\
  io_frame (init_state [7])
    (mkState (<[0%nat := 7]> (replicate MEM_SIZE 0)) 0 (mkRegister 0 true) [] [55]).
Proof.
  assert (H : exec 3 [Instruction.Read; Instruction.Write] (init_state [7]) =
     Finished (mkState (<[0%nat := 7]> (replicate MEM_SIZE 0)) 0 (mkRegister 0 true) [] [55]))
    by (vm_compute; reflexivity).
  split; [left; exact H|]. apply (exec_io_frame 3 [Instruction.Read; Instruction.Write]).
  left. exact H.
Defined.

(** The cells, the register and the input hold bytes, and everything
    written so far is decimal digits. *)
Definition digits_inv (st : State) : Prop :=
  state_bytes st /\ Forall is_digit (stdout st).

Lemma digits_inv_set_cur (st : State) (w : Z) :
  digits_inv st -> 0 <= w < 256 -> digits_inv (set_cur st w).
Proof.
  intros [[Hm [Hr Hi]] Ho] Hw. split; [split; [|split]|]; try assumption.
  apply Forall_insert; assumption.
Qed.

Lemma digits_inv_cur (st : State) (v : Z) :
  digits_inv st -> cur st = Some v -> 0 <= v < 256.
Proof.
  intros [[Hm _] _] Hv. unfold cur in Hv. exact (Forall_lookup_1 _ _ _ _ Hm Hv).
Qed.

Lemma digits_inv_step (x : Instruction.t) (st st' : State) :
  step x st = Next st' -> digits_inv st -> digits_inv st'.
Proof.
  intros Hs Hinv.
  assert (Hread : forall b st1, read_exact st = Some (b, st1) -> digits_inv (set_cur st1 b)).
  { unfold read_exact. intros b st1 H. destruct Hinv as [[Hm [Hr Hi]] Ho].
    destruct (stdin st) as [|b' inp]; [discriminate|]. injection H as <- <-.
    apply Forall_cons in Hi as [Hb Hi].
    split; [split; [|split]|]; simpl; try assumption. apply Forall_insert; assumption. }
  assert (Hwrite : forall v, cur st = Some v -> digits_inv (write_out st v)).
  { intros v Hv. pose proof (digits_inv_cur st v Hinv Hv) as Hvr.
    destruct Hinv as [Hb Ho]. split; [exact Hb|]. simpl.
    apply Forall_app; split; [exact Ho|apply display_u8_digits; exact Hvr]. }
  destruct x; unfold step in Hs;
    try (destruct (cur st) as [v|] eqn:Hv; [|discriminate]).
  - destruct (ptr st =? 0); [discriminate|]. injection Hs as <-. exact Hinv.
  - destruct (ptr st =? USIZE_MAX); [discriminate|]. injection Hs as <-. exact Hinv.
  - discriminate.
  - destruct (v =? 0).
    + destruct (read_exact st) as [[b st1]|] eqn:E; [|discriminate].
      injection Hs as <-. apply Hread. first [exact E | reflexivity].
    + injection Hs as <-. apply Hwrite. reflexivity.
  - injection Hs as <-. apply digits_inv_set_cur; [exact Hinv|].
    unfold wrapping_sub. apply Z.mod_pos_bound. lia.
  - injection Hs as <-. apply digits_inv_set_cur; [exact Hinv|].
    unfold wrapping_add. apply Z.mod_pos_bound. lia.
  - injection Hs as <-. apply digits_inv_set_cur; [exact Hinv|lia].
  - pose proof (digits_inv_cur st v Hinv Hv) as Hvr.
    destruct (empty (reg st)); injection Hs as <-.
    + destruct Hinv as [[Hm [Hr Hi]] Ho]. split; [split; [|split]|]; assumption.
    + pose proof (proj1 (proj2 (proj1 Hinv))) as Hr.
      destruct (digits_inv_set_cur st (value (reg st)) Hinv Hr) as [[Hm [_ Hi]] Ho].
      split; [split; [|split]|]; assumption.
  - injection Hs as <-. apply Hwrite. reflexivity.
  - destruct (read_exact st) as [[b st1]|] eqn:E; [|discriminate].
    destruct (cur st1); [|discriminate]. injection Hs as <-. apply Hread. first [exact E | reflexivity].
  - injection Hs as <-. exact Hinv.
Qed.

Lemma digits_inv_panic (x : Instruction.t) (st s : State) :
  step x st = Panic s -> digits_inv st -> digits_inv s.
Proof.
  intros H Hinv. destruct (step_panic x st s H) as [-> | [_ (b & inp & Hin & ->)]]; [exact Hinv|].
  destruct Hinv as [[Hm [Hr Hi]] Ho]. rewrite Hin in Hi. apply Forall_cons in Hi as [_ Hi].
  split; [split; [|split]|]; assumption.
Qed.

(** Extra (exec): started with bytes on the tape, in the register and on
    standard input, a run keeps them bytes, and everything it prints is
    ASCII decimal digits: the values a program writes are not separated
    from each other. *)
Theorem exec_output_digits (fuel : nat) (p : list Instruction.t) (st st' : State)
  (Hinv : state_bytes st) (Hout : Forall is_digit (stdout st))
  (Hrun : exec fuel p st = Finished st' \/ exec fuel p st = Panicked st') :
  state_bytes st' /\ Forall is_digit (stdout st').
Proof.
  refine (exec_rel (fun s s' => digits_inv s -> digits_inv s') _ _ _ _ fuel p st st' Hrun
            (conj Hinv Hout)).
  - intros s H. exact H.
  - intros s1 s2 s3 H12 H23 H. apply H23, H12, H.
  - intros x s s' Hs. exact (digits_inv_step x s s' Hs).
  - intros x s s' Hs. exact (digits_inv_panic x s s' Hs).
Qed.

Lemma exec_output_digits_witness :
  state_bytes (init_state [200]) /\ Forall is_digit (stdout (init_state [200])) /\
  (exec 4 [Instruction.Read; Instruction.Write; Instruction.Write] (init_state [200]) =
     Finished (mkState (<[0%nat := 200]> (replicate MEM_SIZE 0)) 0 (mkRegister 0 true) []
                 [50; 48; 48; 50; 48; 48])
   \/ exec 4 [Instruction.Read; Instruction.Write; Instruction.Write] (init_state [200]) =
     Panicked (mkState (<[0%nat := 200]> (replicate MEM_SIZE 0)) 0 (mkRegister 0 true) []
                 [50; 48; 48; 50; 48; 48])) /\
  state_bytes (mkState (<[0%nat := 200]> (replicate MEM_SIZE 0)) 0 (mkRegister 0 true) []
                 [50; 48; 48; 50; 48; 48]) /\
  Forall is_digit [50; 48; 48; 50; 48; 48].
Proof.
  assert (Hb : state_bytes (init_state [200])).
  { split; [|split; [simpl; lia|repeat constructor; lia]].
    change (bytes (replicate MEM_SIZE 0)). apply Forall_replicate. lia. }
  assert (Ho : Forall is_digit (stdout (init_state [200]))) by constructor.
  assert (Hr : exec 4 [Instruction.Read; Instruction.Write; Instruction.Write] (init_state [200]) =
     Finished (mkState (<[0%nat := 200]> (replicate MEM_SIZE 0)) 0 (mkRegister 0 true) []
                 [50; 48; 48; 50; 48; 48])) by (vm_compute; reflexivity).
  split; [exact Hb|]. split; [exact Ho|]. split; [left; exact Hr|].
  apply (exec_output_digits 4 [Instruction.Read; Instruction.Write; Instruction.Write]
           (init_state [200])); [exact Hb|exact Ho|left; exact Hr].
Defined.

Lemma exec_app_finished (n : nat) : forall p st st1,
  exec n p st = Finished st1 ->
  forall q m o, exec m q st1 = o -> o <> OutOfFuel -> exec (n + m) (p ++ q) st = o.
Proof.
  induction n as [|n IH]; intros p st st1 Hp q m o Hq Ho; [discriminate|].
  destruct p as [|x p]; cbn [exec] in Hp.
  - injection Hp as <-. apply (exec_more_fuel m q _ o Hq Ho). lia.
  - cbn [app]. change (S n + m)%nat with (S (n + m)).
    destruct x;
      try (rewrite exec_cons_step by not_loop;
           destruct (step _ st) as [s|]; [eapply IH; eassumption | discriminate]).
    cbn [exec]. destruct (cur st) as [v|]; [|discriminate].
    destruct (v =? 0); [eapply IH; eassumption|].
    destruct (exec n body st) as [s|s|] eqn:Hb; try discriminate.
    rewrite (exec_more_fuel n body st (Finished s) Hb ltac:(discriminate) (n + m)) by lia.
    exact (IH (Instruction.Loop body :: p) s st1 Hp q m o Hq Ho).
Qed.

Lemma exec_app_panicked (n : nat) : forall p st s,
  exec n p st = Panicked s -> forall q m, (n <= m)%nat -> exec m (p ++ q) st = Panicked s.
Proof.
  induction n as [|n IH]; intros p st s Hp q m Hm; [discriminate|].
  destruct m as [|m]; [lia|].
  destruct p as [|x p]; cbn [exec] in Hp; [discriminate|]. cbn [app].
  destruct x;
    try (rewrite exec_cons_step by not_loop;
         destruct (step _ st) as [s'|]; [apply IH; [assumption | lia] | exact Hp]).
  cbn [exec]. destruct (cur st) as [v|]; [|exact Hp].
  destruct (v =? 0); [apply IH; [assumption | lia]|].
  destruct (exec n body st) as [s'|s'|] eqn:Hb; try discriminate.
  - rewrite (exec_more_fuel n body st (Finished s') Hb ltac:(discriminate) m) by lia.
    exact (IH (Instruction.Loop body :: p) s' s Hp q m ltac:(lia)).
  - rewrite (exec_more_fuel n body st (Panicked s') Hb ltac:(discriminate) m) by lia.
    exact Hp.
Qed.

(** Extra (exec): a program runs as its two halves in sequence: when the
    first half finishes, the whole continues with the second half from
    there; when the first half panics, the whole panics in the same state
    and the second half never runs. *)
Theorem exec_seq (p q : list Instruction.t) (st : State) (n : nat) :
  (forall st1 m o, exec n p st = Finished st1 -> exec m q st1 = o -> o <> OutOfFuel ->
     exec (n + m) (p ++ q) st = o) /\
  (forall s m, exec n p st = Panicked s -> (n <= m)%nat -> exec m (p ++ q) st = Panicked s).
Proof.
  split.
  - intros st1 m o Hp Hq Ho. exact (exec_app_finished n p st st1 Hp q m o Hq Ho).
  - intros s m Hp Hm. exact (exec_app_panicked n p st s Hp q m Hm).
Qed.

Lemma exec_seq_witness :
  exec 3 [Instruction.IncVal; Instruction.IncVal] (init_state []) =
    Finished (set_cur (init_state []) 2) /\
  exec 2 [Instruction.Write] (set_cur (init_state []) 2) =
    Finished (write_out (set_cur (init_state []) 2) 2) /\
  exec (3 + 2) ([Instruction.IncVal; Instruction.IncVal] ++ [Instruction.Write]) (init_state []) =
    Finished (write_out (set_cur (init_state []) 2) 2).
Proof.
  assert (H1 : exec 3 [Instruction.IncVal; Instruction.IncVal] (init_state []) =
    Finished (set_cur (init_state []) 2)) by (vm_compute; reflexivity).
  assert (H2 : exec 2 [Instruction.Write] (set_cur (init_state []) 2) =
    Finished (write_out (set_cur (init_state []) 2) 2)) by (vm_compute; reflexivity).
  split; [exact H1|]. split; [exact H2|].
  exact (proj1 (exec_seq [Instruction.IncVal; Instruction.IncVal] [Instruction.Write]
                  (init_state []) 3) _ 2%nat _ H1 H2 ltac:(discriminate)).
Defined.

Lemma loop_exit_zero (n : nat) : forall body rest st st',
  exec n (Instruction.Loop body :: rest) st = Finished st' ->
  exists st1 m k, exec m [Instruction.Loop body] st = Finished st1 /\
    cur st1 = Some 0 /\ exec k rest st1 = Finished st'.
Proof.
  induction n as [|n IH]; intros body rest st st' H; [discriminate|].
  cbn [exec] in H. destruct (cur st) as [v|] eqn:Hv; [|discriminate].
  destruct (v =? 0) eqn:Hz.
  - apply Z.eqb_eq in Hz. subst v. exists st, 2%nat, n. split; [|split; assumption].
    cbn [exec]. rewrite Hv. reflexivity.
  - destruct (exec n body st) as [s|s|] eqn:Hb; try discriminate.
    destruct (IH body rest s st' H) as (st1 & m & k & Hm & H0 & Hk).
    exists st1, (S (Nat.max n m)), k. split; [|split; assumption].
    cbn [exec]. rewrite Hv, Hz.
    rewrite (exec_more_fuel n body st (Finished s) Hb ltac:(discriminate) (Nat.max n m))
      by lia.
    exact (exec_more_fuel m _ _ _ Hm ltac:(discriminate) (Nat.max n m) ltac:(lia)).
Qed.

(** Extra (exec, [Loop]): a loop is only left through its guard: when a
    [Loop] followed by more instructions finishes, the [Loop] on its own
    finishes in a state whose current cell is 0, and the instructions
    after it run from that state to the final one. *)
Theorem loop_exits_at_zero (n : nat) (body rest : list Instruction.t) (st st' : State)
  (H : exec n (Instruction.Loop body :: rest) st = Finished st') :
  exists st1 m k, exec m [Instruction.Loop body] st = Finished st1 /\
    cur st1 = Some 0 /\ exec k rest st1 = Finished st'.
Proof. exact (loop_exit_zero n body rest st st' H). Qed.

Lemma loop_exits_at_zero_witness :
  exec 10 [Instruction.Loop [Instruction.DecVal]; Instruction.Write] (set_cur (init_state []) 2) =
    Finished (write_out (set_cur (init_state []) 0) 0) /\
  exists st1 m k, exec m [Instruction.Loop [Instruction.DecVal]] (set_cur (init_state []) 2) =
    Finished st1 /\ cur st1 = Some 0 /\
    exec k [Instruction.Write] st1 = Finished (write_out (set_cur (init_state []) 0) 0).
Proof.
  assert (H : exec 10 [Instruction.Loop [Instruction.DecVal]; Instruction.Write]
                (set_cur (init_state []) 2) =
              Finished (write_out (set_cur (init_state []) 0) 0)) by (vm_compute; reflexivity).
  split; [exact H|]. exact (loop_exits_at_zero 10 _ _ _ _ H).
Defined.

(** Extra (exec, [Loop]): a loop whose cell is nonzero and whose body,
    when it finishes, leaves the state as it found it, never finishes: it
    panics inside the body or runs forever (e.g. an empty body). *)
Theorem loop_stuck_never_finishes (body rest : list Instruction.t) (st : State) (v : Z)
  (Hv : cur st = Some v) (Hnz : v <> 0)
  (Hbody : forall k s, exec k body st = Finished s -> s = st) :
  forall n s, exec n (Instruction.Loop body :: rest) st <> Finished s.
Proof.
  induction n as [|n IH]; intros s; [discriminate|].
  cbn [exec]. rewrite Hv. rewrite (proj2 (Z.eqb_neq v 0) Hnz).
  destruct (exec n body st) as [s'|s'|] eqn:Hb; try discriminate.
  rewrite (Hbody n s' Hb). apply IH.
Qed.

Lemma loop_stuck_never_finishes_witness :
  cur (set_cur (init_state []) 1) = Some 1 /\ 1 <> 0 /\
  (forall k s, exec k [] (set_cur (init_state []) 1) = Finished s -> s = set_cur (init_state []) 1) /\
  exec 1000 [Instruction.Loop []] (set_cur (init_state []) 1) <> Finished (set_cur (init_state []) 1).
Proof.
  assert (H1 : cur (set_cur (init_state []) 1) = Some 1) by (vm_compute; reflexivity).
  assert (H3 : forall k s, exec k [] (set_cur (init_state []) 1) = Finished s ->
                 s = set_cur (init_state []) 1).
  { intros [|k] s H; [discriminate|]. injection H as <-. reflexivity. }
  split; [exact H1|]. split; [lia|]. split; [exact H3|].
  exact (loop_stuck_never_finishes [] [] _ 1 H1 ltac:(lia) H3 1000 _).
Defined.

Lemma clear_loop (k : nat) : forall st,
  (k < 256)%nat -> cur st = Some (Z.of_nat k) ->
  exec (k + 2) [Instruction.Loop [Instruction.DecVal]] st = Finished (set_cur st 0).
Proof.
  induction k as [|k IH]; intros st Hk Hv.
  - change (0 + 2)%nat with 2%nat. cbn [exec]. rewrite Hv. cbn.
    rewrite set_cur_id by exact Hv. reflexivity.
  - change (S k + 2)%nat with (S (k + 2)). cbn [exec]. rewrite Hv.
    rewrite (proj2 (Z.eqb_neq (Z.of_nat (S k)) 0)) by lia.
    assert (Hd : exec (k + 2) [Instruction.DecVal] st = Finished (set_cur st (Z.of_nat k))).
    { replace (k + 2)%nat with (S (S k)) by lia.
      rewrite exec_cons_step by not_loop. unfold step. rewrite Hv.
      unfold wrapping_sub. rewrite Z.mod_small by lia.
      replace (Z.of_nat (S k) - 1) with (Z.of_nat k) by lia. reflexivity. }
    rewrite Hd.
    rewrite (IH (set_cur st (Z.of_nat k)) ltac:(lia) ltac:(eapply cur_set_cur; exact Hv)).
    rewrite set_cur_set_cur. reflexivity.
Qed.

(** Extra (exec, [Loop]): a loop whose body is one [DecVal] (the program
    "MOO MOo moo") clears the current cell: from a byte [v] it finishes
    after [v] iterations with the cell at 0 and nothing else changed. *)
Theorem clear_cell_loop (st : State) (v : Z) (fuel : nat)
  (Hv : cur st = Some v) (Hr : 0 <= v < 256) (Hf : (Z.to_nat v + 2 <= fuel)%nat) :
  exec fuel [Instruction.Loop [Instruction.DecVal]] st = Finished (set_cur st 0).
Proof.
  apply (exec_more_fuel (Z.to_nat v + 2)); [|discriminate|exact Hf].
  apply clear_loop; [lia|]. rewrite Z2Nat.id by lia. exact Hv.
Qed.

Lemma clear_cell_loop_witness :
  cur (set_cur (init_state []) 200) = Some 200 /\ 0 <= 200 < 256 /\
  (Z.to_nat 200 + 2 <= 300)%nat /\
  exec 300 [Instruction.Loop [Instruction.DecVal]] (set_cur (init_state []) 200) =
    Finished (set_cur (set_cur (init_state []) 200) 0).
Proof.
  assert (H1 : cur (set_cur (init_state []) 200) = Some 200) by (vm_compute; reflexivity).
  split; [exact H1|]. split; [lia|]. split; [vm_compute; lia|].
  apply (clear_cell_loop _ 200 300 H1); [lia|vm_compute; lia].
Defined.

(** ** Further properties of the parser *)




Lemma scan_plain (parse_rec : list Command.t -> option (list Instruction.t))
  (commands rest : list Command.t) :
  Forall (fun c => is_loop_marker c = false) rest ->
  forall i instrs s,
  exists t, scan parse_rec commands i rest (mkPState instrs 0 s false) = Some (instrs ++ t) /\
    flatten t = rest /\ length t = length rest /\
    Forall (fun x => forall body, x <> Instruction.Loop body) t.
Proof.
  induction rest as [|c rest IH]; intros Hr i instrs s.
  - exists []. rewrite app_nil_r. repeat split; constructor.
  - apply Forall_cons in Hr as [Hc Hr].
    destruct c; try discriminate Hc; cbn [scan instructions loop_level loop_start skip_next Nat.eqb];
      lazymatch goal with |- context [instrs ++ [?x]] =>
        destruct (IH Hr (S i) (instrs ++ [x]) s) as (t & Heq & Hf & Hl & Hn);
        exists (x :: t); rewrite Heq, <- app_assoc; split; [reflexivity|];
        split; [cbn [flatten flatten_instr app]; rewrite Hf; reflexivity|];
        split; [cbn [length]; rewrite Hl; reflexivity|];
        constructor; [intros body; discriminate | exact Hn]
      end.
Qed.

(** Extra (parse): a command sequence without loop markers parses, without
    panicking, to one instruction per command, in order, and to no
    [Loop]. *)
Theorem parse_loop_free (cs : list Command.t)
  (Hcs : Forall (fun c => is_loop_marker c = false) cs) :
  exists t, parse cs = Some t /\ flatten t = cs /\ length t = length cs /\
    Forall (fun x => forall body, x <> Instruction.Loop body) t.
Proof.
  unfold parse. cbn [parse_fuel]. unfold parse_init.
  exact (scan_plain _ cs cs Hcs 0 [] 0).
Qed.

Lemma parse_loop_free_witness :
  Forall (fun c => is_loop_marker c = false) [Command.Read; Command.IncVal; Command.Write] /\
  exists t, parse [Command.Read; Command.IncVal; Command.Write] = Some t /\
    flatten t = [Command.Read; Command.IncVal; Command.Write] /\ length t = 3%nat /\
    Forall (fun x => forall body, x <> Instruction.Loop body) t.
Proof.
  assert (H : Forall (fun c => is_loop_marker c = false) [Command.Read; Command.IncVal; Command.Write])
    by (repeat constructor).
  split; [exact H|]. exact (parse_loop_free _ H).
Defined.

(** Extra (exec, [RWCond]): [RWCond] runs as a [Read] when the current
    cell is 0 (panicking the same way at the end of input) and as a
    [Write] otherwise. *)
Theorem rwcond_read_or_write (fuel : nat) (rest : list Instruction.t) (st : State) (v : Z)
  (Hv : cur st = Some v) :
  exec (S fuel) (Instruction.RWCond :: rest) st =
  exec (S fuel) ((if v =? 0 then Instruction.Read else Instruction.Write) :: rest) st.
Proof.
  rewrite !exec_cons_step by (destruct (v =? 0); not_loop).
  unfold step. rewrite Hv. destruct (v =? 0); [|reflexivity].
  unfold read_exact. destruct (stdin st) as [|b inp]; [reflexivity|].
  unfold cur in Hv |- *. cbn [mem ptr]. rewrite Hv. reflexivity.
Qed.

Lemma rwcond_read_or_write_witness :
  cur (init_state []) = Some 0 /\
  exec 5 [Instruction.RWCond] (init_state []) = exec 5 [Instruction.Read] (init_state []).
Proof.
  split; [reflexivity|]. exact (rwcond_read_or_write 4 [] (init_state []) 0 eq_refl).
Defined.

(** Extra (exec, [IncVal]): [k] consecutive [IncVal]s on a byte cell add
    [k] to it modulo 256 and change nothing else. *)
Theorem inc_val_repeat (k fuel : nat) (st : State) (v : Z)
  (Hv : cur st = Some v) (Hr : 0 <= v < 256) (Hf : (k < fuel)%nat) :
  exec fuel (repeat Instruction.IncVal k) st = Finished (set_cur st ((v + Z.of_nat k) mod 256)).
Proof. exact (exec_inc_repeat k st v fuel Hv Hr Hf). Qed.

Lemma inc_val_repeat_witness :
  cur (init_state []) = Some 0 /\ 0 <= 0 < 256 /\ (300 < 301)%nat /\
  exec 301 (repeat Instruction.IncVal 300) (init_state []) =
    Finished (set_cur (init_state []) ((0 + Z.of_nat 300) mod 256)).
Proof.
  split; [reflexivity|]. split; [lia|]. split; [lia|].
  apply inc_val_repeat; [reflexivity | lia | lia].
Defined.

(** ** Footprint of a program *)

Lemma instr_all_loop (f : Instruction.t -> bool) (body : list Instruction.t) :
  instr_all f (Instruction.Loop body) = f (Instruction.Loop body) && prog_all f body.
Proof.
reflexivity. Qed.

Section ExecInvariantOn.
(** As [exec_rel], for a relation only the steps of the instructions
    satisfying [f] keep, on programs made of such instructions. *)
Variable f : Instruction.t -> bool.
Variable R : State -> State -> Prop.
Hypothesis R_refl : forall st, R st st.
Hypothesis R_trans : forall st1 st2 st3, R st1 st2 -> R st2 st3 -> R st1 st3.
Hypothesis R_step : forall x st st', f x = true -> step x st = Next st' -> R st st'.
Hypothesis R_panic : forall x st st', f x = true -> step x st = Panic st' -> R st st'.

Lemma exec_rel_on (n : nat) : forall p st st', prog_all f p = true ->
  exec n p st = Finished st' \/ exec n p st = Panicked st' -> R st st'.
Proof.
  induction n as [|n IH]; intros p st st' Hp Hrun; [destruct Hrun; discriminate|].
  destruct p as [|x p]; cbn [exec] in Hrun.
  - destruct Hrun as [H|H]; try discriminate H; injection H as <-; apply R_refl.
  - unfold prog_all in Hp. cbn [forallb] in Hp. apply andb_true_iff in Hp as [Hx Hp].
    assert (Hfx : f x = true) by (destruct x; cbn [instr_all] in Hx;
                                   apply andb_true_iff in Hx as [Hx _]; exact Hx).
    destruct x;
      try (destruct (step _ st) as [s|s] eqn:Hs;
           [apply (R_trans _ s); [eapply R_step; eassumption | eapply IH; eassumption]
           | destruct Hrun as [H|H]; try discriminate H; injection H as <-;
             eapply R_panic; eassumption]).
    rewrite instr_all_loop in Hx. apply andb_true_iff in Hx as [_ Hb].
    destruct (cur st) as [v|];
      [|destruct Hrun as [H|H]; [discriminate|injection H as <-; apply R_refl]].
    destruct (v =? 0); [eapply IH; eassumption|].
    destruct (exec n body st) as [s|s|] eqn:Hbody.
    + apply (R_trans _ s); [apply (IH body); [exact Hb | left; exact Hbody]|].
      apply (IH (Instruction.Loop body :: p)); [|exact Hrun].
      unfold prog_all. cbn [forallb]. rewrite instr_all_loop, Hfx, Hb, Hp. reflexivity.
    + destruct Hrun as [H|H]; [discriminate|]. injection H as <-.
      apply (IH body); [exact Hb | right; exact Hbody].
    + destruct Hrun; discriminate.
Qed.
End ExecInvariantOn.

(** Only the current cell changes, at the same pointer. *)
Definition ptr_frame (st st' : State) : Prop :=
  ptr st' = ptr st /\ (forall j, j <> Z.to_nat (ptr st) -> mem st' !! j = mem st !! j).

Lemma ptr_frame_step (x : Instruction.t) (st st' : State) :
  negb (is_ptr_move x) = true -> step x st = Next st' -> ptr_frame st st'.
Proof.
  intros Hx Hs.
  assert (Hid : ptr_frame st st) by (split; [reflexivity | intros; reflexivity]).
  assert (Hset : forall w, ptr_frame st (set_cur st w)).
  { intros w. destruct (set_cur_frame st w) as [Hp [_ Hm]]. split; assumption. }
  assert (Hread : forall b st1, read_exact st = Some (b, st1) -> ptr_frame st (set_cur st1 b)).
  { unfold read_exact. intros b st1 H. destruct (stdin st) as [|b' inp]; [discriminate|].
    injection H as -> <-.
    destruct (set_cur_frame (mkState (mem st) (ptr st) (reg st) inp (stdout st)) b)
      as [Hp [_ Hm]].
    split; assumption. }
  destruct x; unfold step in Hs; cbn in Hx; try discriminate Hx;
    try (destruct (cur st) as [v|]; [|discriminate]).
  - discriminate.
  - destruct (v =? 0).
    + destruct (read_exact st) as [[b st1]|] eqn:E; [|discriminate].
      injection Hs as <-. first [exact (Hread b st1 E) | exact (Hread b st1 eq_refl)].
    + injection Hs as <-. exact Hid.
  - injection Hs as <-. apply Hset.
  - injection Hs as <-. apply Hset.
  - injection Hs as <-. apply Hset.
  - destruct (empty (reg st)); injection Hs as <-; [exact Hid|].
    destruct (Hset (value (reg st))) as [Hp Hm]. split; assumption.
  - injection Hs as <-. exact Hid.
  - destruct (read_exact st) as [[b st1]|] eqn:E; [|discriminate].
    destruct (cur st1); [|discriminate]. injection Hs as <-. first [exact (Hread b st1 E) | exact (Hread b st1 eq_refl)].
  - injection Hs as <-. exact Hid.
Qed.

Lemma stdin_step (x : Instruction.t) (st st' : State) :
  negb (reads_input x) = true -> step x st = Next st' -> stdin st' = stdin st.
Proof.
  intros Hx Hs. destruct x; unfold step in Hs; cbn in Hx; try discriminate Hx;
    try (destruct (cur st) as [v|]; [|discriminate]).
  - destruct (ptr st =? 0); [discriminate|]. injection Hs as <-. reflexivity.
  - destruct (ptr st =? USIZE_MAX); [discriminate|]. injection Hs as <-. reflexivity.
  - discriminate.
  - injection Hs as <-. reflexivity.
  - injection Hs as <-. reflexivity.
  - injection Hs as <-. reflexivity.
  - destruct (empty (reg st)); injection Hs as <-; reflexivity.
  - injection Hs as <-. reflexivity.
  - injection Hs as <-. reflexivity.
Qed.

Lemma stdout_step (x : Instruction.t) (st st' : State) :
  negb (writes_output x) = true -> step x st = Next st' -> stdout st' = stdout st.
Proof.
  intros Hx Hs. destruct x; unfold step in Hs; cbn in Hx; try discriminate Hx;
    try (destruct (cur st) as [v|]; [|discriminate]).
  - destruct (ptr st =? 0); [discriminate|]. injection Hs as <-. reflexivity.
  - destruct (ptr st =? USIZE_MAX); [discriminate|]. injection Hs as <-. reflexivity.
  - discriminate.
  - injection Hs as <-. reflexivity.
  - injection Hs as <-. reflexivity.
  - injection Hs as <-. reflexivity.
  - destruct (empty (reg st)); injection Hs as <-; reflexivity.
  - unfold read_exact in Hs. destruct (stdin st) as [|b inp]; [discriminate|].
    destruct (cur _); [|discriminate]. injection Hs as <-. reflexivity.
  - injection Hs as <-. reflexivity.
Qed.

(** A panic state differs from the start state at most in the input a
    [Read] consumed. *)
Lemma footprint_panic (x : Instruction.t) (st s : State) :
  step x st = Panic s ->
  ptr_frame st s /\ (negb (reads_input x) = true -> stdin s = stdin st) /\
  stdout s = stdout st.
Proof.
  intros H. destruct (step_panic x st s H) as [-> | [-> (b & inp & Hin & ->)]].
  - split; [split; [reflexivity | intros; reflexivity]|]. split; reflexivity.
  - split; [split; [reflexivity | intros; reflexivity]|]. split; [discriminate|reflexivity].
Qed.

(** Extra (exec): the footprint of a program follows from the instructions
    it contains, loop bodies included: without [DecPtr] and [IncPtr] the
    pointer stays put and only the cell under it can change; without
    [Read] and [RWCond] no input is consumed; without [Write] and [RWCond]
    nothing is printed. This holds up to a finish or a panic. *)
Theorem exec_footprint (fuel : nat) (p : list Instruction.t) (st st' : State)
  (Hrun : exec fuel p st = Finished st' \/ exec fuel p st = Panicked st') :
  (prog_all (fun x => negb (is_ptr_move x)) p = true -> ptr_frame st st') /\
  (prog_all (fun x => negb (reads_input x)) p = true -> stdin st' = stdin st) /\
  (prog_all (fun x => negb (writes_output x)) p = true -> stdout st' = stdout st).
Proof.
  split; [|split]; intros Hp.
  - refine (exec_rel_on _ ptr_frame _ _ ptr_frame_step
            (fun x s s' _ H => proj1 (footprint_panic x s s' H)) fuel p st st' Hp Hrun).
    + intros s. split; [reflexivity | intros; reflexivity].
    + intros s1 s2 s3 [P1 M1] [P2 M2]. split; [congruence|].
      intros j Hj. rewrite M2 by congruence. apply M1. exact Hj.
  - refine (exec_rel_on _ (fun s s' => stdin s' = stdin s) _ _ stdin_step
            (fun x s s' Hx H => proj1 (proj2 (footprint_panic x s s' H)) Hx) fuel p st st' Hp Hrun).
    + reflexivity.
    + intros s1 s2 s3 H12 H23. congruence.
  - refine (exec_rel_on _ (fun s s' => stdout s' = stdout s) _ _ stdout_step
            (fun x s s' _ H => proj2 (proj2 (footprint_panic x s s' H))) fuel p st st' Hp Hrun).
    + reflexivity.
    + intros s1 s2 s3 H12 H23. congruence.
Qed.

Lemma exec_footprint_witness :
  (exec 10 [Instruction.Loop [Instruction.DecVal]] (set_cur (init_state []) 3) =
     Finished (set_cur (init_state []) 0) \/
   exec 10 [Instruction.Loop [Instruction.DecVal]] (set_cur (init_state []) 3) =
     Panicked (set_cur (init_state []) 0)) /\
  ptr_frame (set_cur (init_state []) 3) (set_cur (init_state []) 0).
Proof.
  assert (H : exec 10 [Instruction.Loop [Instruction.DecVal]] (set_cur (init_state []) 3) =
     Finished (set_cur (init_state []) 0)) by (vm_compute; reflexivity).
  split; [left; exact H|].
  exact (proj1 (exec_footprint 10 _ _ _ (or_introl H)) eq_refl).
Defined.

(** Extra (exec, [DecPtr]/[IncPtr]): the two pointer moves undo each other
    wherever neither overflows: [IncPtr] then [DecPtr] below [usize::MAX],
    and [DecPtr] then [IncPtr] above 0, give back the state, whether or not
    the pointer is on the tape. *)
Theorem ptr_moves_inverse (fuel : nat) (st : State) (Hp : 0 <= ptr st <= USIZE_MAX) :
  (ptr st < USIZE_MAX ->
   exec (S (S (S fuel))) [Instruction.IncPtr; Instruction.DecPtr] st = Finished st) /\
  (0 < ptr st ->
   exec (S (S (S fuel))) [Instruction.DecPtr; Instruction.IncPtr] st = Finished st).
Proof.
  split; intros Hlt.
  - rewrite exec_cons_step by not_loop. cbn [step].
    rewrite (proj2 (Z.eqb_neq (ptr st) USIZE_MAX)) by lia.
    rewrite exec_cons_step by not_loop. cbn [step ptr with_ptr].
    rewrite (proj2 (Z.eqb_neq (ptr st + 1) 0)) by lia.
    cbn [exec]. unfold with_ptr. cbn [mem ptr reg stdin stdout].
    replace (ptr st + 1 - 1) with (ptr st) by lia. destruct st; reflexivity.
  - rewrite exec_cons_step by not_loop. cbn [step].
    rewrite (proj2 (Z.eqb_neq (ptr st) 0)) by lia.
    rewrite exec_cons_step by not_loop. cbn [step ptr with_ptr].
    rewrite (proj2 (Z.eqb_neq (ptr st - 1) USIZE_MAX)) by lia.
    cbn [exec]. unfold with_ptr. cbn [mem ptr reg stdin stdout].
    replace (ptr st - 1 + 1) with (ptr st) by lia. destruct st; reflexivity.
Qed.

Lemma ptr_moves_inverse_witness :
  0 <= ptr (with_ptr (init_state []) 2999) <= USIZE_MAX /\
  exec 3 [Instruction.DecPtr; Instruction.IncPtr] (with_ptr (init_state []) 2999) =
    Finished (with_ptr (init_state []) 2999).
Proof.
  assert (H : 0 <= ptr (with_ptr (init_state []) 2999) <= USIZE_MAX)
    by (cbn; unfold USIZE_MAX; lia).
  split; [exact H|].
  apply (proj2 (ptr_moves_inverse 0 _ H)). cbn. lia.
Defined.
